(** * ImmutableObject: the merge engine of [vendor_upstream/immutable-value]

    A shallow embedding of [ImmutableObject.js].  JavaScript objects live in
    an explicit heap; every operation of the module is a computation in a
    small state-and-exception monad over that heap, so that aliasing,
    reference identity and the absence of writes to pre-existing objects can
    be stated and proved. *)

From Stdlib Require Import ZArith Lia.
From stdpp Require Import base option list strings pretty.

(** ** Values and the heap *)

Abbreviation loc := nat.

(** What an object is an instance of.  The prototype chain of an object is
    fixed when it is allocated, so a reference carries the class of the
    object it points to: [typeof], [Array.isArray] and [instanceof] are then
    functions of the reference alone. *)
Inductive klass :=
| KObject            (* a plain [{}] record *)
| KImmutableValue    (* an instance of [ImmutableValue] (here: [ImmutableObject]) *)
| KArray
| KFunction
| KDate.             (* any other built-in object, e.g. a [Date] *)

Inductive value :=
| VUndefined
| VNull
| VBoolean (b : bool)
| VNumber (n : Z)
| VString (s : string)
| VRef (k : klass) (l : loc).

Global Instance klass_eq_dec : EqDecision klass.
Proof. solve_decision. Defined.

Global Instance value_eq_dec : EqDecision value.
Proof. solve_decision. Defined.

(** An object: its own enumerable properties, and whether it has been
    frozen.  The properties are kept in creation order; [own_props] below
    lists them the way JavaScript does, array indices first.  Own
    properties that are not enumerable (the [length] of an array, the
    [length], [name] and [prototype] of a function) are not held here, and
    the prototype of an object is the one its class gives it. *)
Record object := Object { frozen : bool; props : list (string * value) }.

Abbreviation heap := (list object).

Inductive error :=
| NotImmutable          (* [assertImmutable] failed *)
| InvalidPatch          (* the [put] argument of [set] was rejected *)
| MalformedMergePair    (* [checkMergeObjectArgs] rejected a pair *)
| TypeError             (* thrown by the language: a call of what is no function,
                           a strict-mode write to what is not writable, ... *)
| RangeError            (* call stack exhausted *)
| Unsupported.          (* no exception of JavaScript: the run leaves the embedded
                           fragment (it calls a function object of the heap, gives
                           an object another prototype, or asks for a property
                           that is not enumerable) *)

(** ** Ordered property lists *)

Section assoc.
Context {V : Type}.

Definition keys (es : list (string * V)) : list string := map fst es.

Fixpoint assoc (k : string) (es : list (string * V)) : option V :=
  match es with
  | [] => None
  | (k', v) :: es' => if decide (k = k') then Some v else assoc k es'
  end.

Definition has_key (k : string) (es : list (string * V)) : bool :=
  match assoc k es with Some _ => true | None => false end.

(** [o[k] = v] on an ordinary object: an existing key keeps its place, a
    new key goes last. *)
Fixpoint upsert (k : string) (v : V) (es : list (string * V)) : list (string * V) :=
  match es with
  | [] => [(k, v)]
  | (k', v') :: es' =>
      if decide (k = k') then (k', v) :: es' else (k', v') :: upsert k v es'
  end.

(** Overwriting an existing key: the entry changes where it stands. *)
Definition replace_at (k : string) (v : V) (es : list (string * V)) : list (string * V) :=
  map (fun kv => if decide (kv.1 = k) then (kv.1, v) else kv) es.

(** The entries of [src] written one after the other into [dst]. *)
Definition write_all (src dst : list (string * V)) : list (string * V) :=
  fold_left (fun acc kv => upsert kv.1 kv.2 acc) src dst.
End assoc.

(** ** The order of own keys *)

(** The number a string of decimal digits denotes. *)
Fixpoint digits (s : string) (acc : N) : option N :=
  match s with
  | EmptyString => Some acc
  | String c s' =>
      let n := Ascii.N_of_ascii c in
      if (48 <=? n)%N && (n <=? 57)%N then digits s' (10 * acc + (n - 48))%N
      else None
  end.

(** A key is an array index when it is the canonical decimal form of an
    integer from 0 to 2^32 - 2. *)
Definition array_index (key : string) : option N :=
  match key with
  | EmptyString => None
  | _ =>
      match digits key 0 with
      | Some n =>
          if bool_decide (pretty n = key) && (n <? 4294967295)%N then Some n else None
      | None => None
      end
  end.

Section own_order.
Context {V : Type}.

(** [kv], whose key is the array index [i], put in its place among entries
    in ascending order of index. *)
Fixpoint place (i : N) (kv : string * V) (es : list (string * V)) : list (string * V) :=
  match es with
  | [] => [kv]
  | kv' :: es' =>
      match array_index kv'.1 with
      | Some j => if (i <=? j)%N then kv :: es else kv' :: place i kv es'
      | None => kv :: es
      end
  end.

(** The entries whose key is an array index, in ascending order of index. *)
Definition indexed (es : list (string * V)) : list (string * V) :=
  foldr (fun kv acc => match array_index kv.1 with
                       | Some i => place i kv acc
                       | None => acc
                       end) [] es.

(** The order in which [Object.keys] and [for ... in] report the own
    properties of an ordinary object: array indices first, in ascending
    numeric order, then the other keys in the order of their creation. *)
Definition own_order (es : list (string * V)) : list (string * V) :=
  indexed es ++ filter (fun kv => array_index kv.1 = None) es.
End own_order.

(** ** The monad: heap state and exceptions *)

Definition M (A : Type) : Type := heap -> (error + A) * heap.

Definition ret {A} (a : A) : M A := fun h => (inr a, h).
Definition throw {A} (e : error) : M A := fun h => (inl e, h).
Definition bind {A B} (m : M A) (f : A -> M B) : M B :=
  fun h => match m h with
           | (inl e, h') => (inl e, h')
           | (inr a, h') => f a h'
           end.
Definition gets {A} (f : heap -> A) : M A := fun h => (inr (f h), h).

Notation "x <- m ;; k" := (bind m (fun x => k))
  (at level 100, m at next level, right associativity).
Notation "m ;;; k" := (bind m (fun _ => k))
  (at level 100, right associativity).

(** [for (...) { body }] over a snapshot of keys. *)
Fixpoint forEach {A} (xs : list A) (body : A -> M unit) : M unit :=
  match xs with
  | [] => ret tt
  | x :: xs' => body x ;;; forEach xs' body
  end.

(** ** JavaScript primitives used by the module *)

Inductive jstype := TUndefined | TObject | TBoolean | TNumber | TString | TFunction.

Global Instance jstype_eq_dec : EqDecision jstype.
Proof. solve_decision. Defined.

Definition typeof (v : value) : jstype :=
  match v with
  | VUndefined => TUndefined
  | VNull => TObject
  | VBoolean _ => TBoolean
  | VNumber _ => TNumber
  | VString _ => TString
  | VRef KFunction _ => TFunction
  | VRef _ _ => TObject
  end.

Definition Array_isArray (v : value) : bool :=
  match v with VRef KArray _ => true | _ => false end.

Definition instanceof_ImmutableValue (v : value) : bool :=
  match v with VRef KImmutableValue _ => true | _ => false end.

(** The characters of a string primitive, which are its own enumerable
    properties, under the keys ["0"], ["1"], ... *)
Fixpoint chars (i : nat) (s : string) : list (string * value) :=
  match s with
  | EmptyString => []
  | String c s' => (pretty i, VString (String c EmptyString)) :: chars (S i) s'
  end.

(** The own enumerable properties of whatever [v] denotes, in the order in
    which JavaScript reports them.  [undefined], [null], numbers, booleans
    and references to nothing have none. *)
Definition own_props (h : heap) (v : value) : list (string * value) :=
  match v with
  | VRef _ l => match h !! l with Some o => own_order (props o) | None => [] end
  | VString s => chars 0 s
  | _ => []
  end.

(** The keys that [for (key in v)] visits and that pass the test of
    [hasOwnProperty]: the own enumerable ones.  The loop runs no turn on
    [null] and [undefined]. *)
Definition for_in (v : value) : M (list string) :=
  gets (fun h => keys (own_props h v)).

(** [Object.keys(v)]: a TypeError on [null] and [undefined], which have no
    object to convert to. *)
Definition Object_keys (v : value) : M (list string) :=
  match v with
  | VUndefined | VNull => throw TypeError
  | _ => gets (fun h => keys (own_props h v))
  end.

(** Own properties that exist but are not enumerable; the heap does not
    hold their values. *)
Definition hidden (v : value) (key : string) : bool :=
  match v with
  | VString _ | VRef KArray _ => bool_decide (key = "length")
  | VRef KFunction _ =>
      bool_decide (key ∈ ["length"; "name"; "prototype"; "arguments"; "caller"])
  | _ => false
  end.

(** [v.hasOwnProperty(key)].  The method is looked up through [v]: an own
    property named [hasOwnProperty] shadows the one of [Object.prototype],
    and the call of a value that is no function is a TypeError, as is the
    lookup on [null] and [undefined].  No class of the embedding has a
    prototype that overrides the method. *)
Definition hasOwnProperty (v : value) (key : string) : M bool :=
  fun h =>
    match v with
    | VUndefined | VNull => (inl TypeError, h)
    | _ =>
        match assoc "hasOwnProperty" (own_props h v) with
        | Some (VRef KFunction _) => (inl Unsupported, h)
        | Some _ => (inl TypeError, h)
        | None =>
            if hidden v key then (inl Unsupported, h)
            else (inr (has_key key (own_props h v)), h)
        end
    end.

(** [v[key]] for an own enumerable property. *)
Definition prop_get (v : value) (key : string) : M value :=
  gets (fun h => default VUndefined (assoc key (own_props h v))).

(** The own entry [key] of [target] is created, or overwritten where it
    stands.  The module is in strict mode: writing to a frozen object, or
    to something that is not an object, throws. *)
Definition define_own (target : value) (key : string) (v : value) : M unit :=
  fun h =>
    match target with
    | VRef _ l =>
        match h !! l with
        | Some o =>
            if frozen o then (inl TypeError, h)
            else (inr tt, <[l := Object false (upsert key v (props o))]> h)
        | None => (inl TypeError, h)
        end
    | _ => (inl TypeError, h)
    end.

(** The assignment [target[key] = v].  The key [__proto__] is no entry but
    the accessor of [Object.prototype]: given a primitive its setter does
    nothing, given an object or [null] it changes the prototype of
    [target]. *)
Definition prop_set (target : value) (key : string) (v : value) : M unit :=
  match target with
  | VUndefined | VNull => throw TypeError
  | _ =>
      if bool_decide (key = "__proto__") then
        match v with
        | VNull | VRef _ _ => throw Unsupported
        | _ => ret tt
        end
      else if hidden target key then throw Unsupported
      else define_own target key v
  end.

(** [{}], or the object a [new] expression starts from. *)
Definition alloc (k : klass) : M value :=
  fun h => (inr (VRef k (length h)), h ++ [Object false []]).

(** [invariant(condition, message)]. *)
Definition invariant (condition : bool) (e : error) : M unit :=
  if condition then ret tt else throw e.

(** ** ImmutableValue (collaborator) *)

(** Modelled from the spec: the step of [mergeAllPropertiesInto] for one
    source, which the module [ImmutableValue], outside this development,
    defines.  Spec 4.2: the source's entries are overlaid one level deep,
    in the source's order; a key the destination has keeps its position.
    Each entry of the source becomes an entry of the destination.  A source
    that is not an object contributes nothing. *)
Definition assign (destination source : value) : M unit :=
  match source with
  | VRef _ _ =>
      ks <- for_in source ;;
      forEach ks (fun key => v <- prop_get source key ;; define_own destination key v)
  | _ => ret tt
  end.

(** Modelled from the spec: [ImmutableValue.mergeAllPropertiesInto], defined
    in the module [ImmutableValue], outside this development.  Spec 1: the
    bulk "merge all source objects into a blank target" initialization, one
    source after the other. *)
Definition mergeAllPropertiesInto (destination : value) (propertyObjects : list value) : M unit :=
  forEach propertyObjects (assign destination).

(** Modelled from the spec: [ImmutableValue.deepFreezeRootNode], defined in
    the module [ImmutableValue], outside this development.  Spec 6: the
    freeze/seal primitive invoked once at construction, which seals the new
    value against further in-place writes. *)
Definition deepFreezeRootNode (v : value) : M unit :=
  fun h =>
    match v with
    | VRef _ l =>
        match h !! l with
        | Some o => (inr tt, <[l := Object true (props o)]> h)
        | None => (inr tt, h)
        end
    | _ => (inr tt, h)
    end.

(** ** mergeHelpers (collaborator) *)

Module mergeHelpers.

(** Modelled from the spec: the values that spec 4.1 calls mappings, plain
    records and Immutable Values. *)
Definition is_mapping (v : value) : bool :=
  match v with
  | VRef KObject _ | VRef KImmutableValue _ => true
  | _ => false
  end.

(** Modelled from the spec: [mergeHelpers.isTerminal], defined in the
    module [mergeHelpers], outside this development.  Spec 4.1: a value is terminal if it is not a plain
    mapping (primitives, arrays, functions, anything without a
    merge-compatible shape); mappings, nested Immutable Values included,
    are non-terminal. *)
Definition isTerminal (v : value) : bool := negb (is_mapping v).

(** Modelled from the spec: [mergeHelpers.checkMergeObjectArgs], defined in
    the module [mergeHelpers], outside this development.  Spec 4.2, deep
    merge step 1: both values must be mapping-shaped. *)
Definition checkMergeObjectArgs (one two : value) : bool :=
  is_mapping one && is_mapping two.

End mergeHelpers.

(** ** ImmutableObject *)

Section ImmutableObject.

(** The build-time constant [__DEV__]. *)
Variable __DEV__ : bool.

(** The two helpers the module imports from [mergeHelpers]; [true] from
    [checkMergeObjectArgs] means that the pair was accepted. *)
Variable isTerminal : value -> bool.
Variable checkMergeObjectArgs : value -> value -> bool.

Definition assertImmutable (immutable : value) : M unit :=
  invariant (instanceof_ImmutableValue immutable) NotImmutable.

(** [new ImmutableObject(...arguments)]. *)
Definition new_ImmutableObject (arguments : list value) : M value :=
  this <- alloc KImmutableValue ;;
  mergeAllPropertiesInto this arguments ;;;
  (if __DEV__ then deepFreezeRootNode this else ret tt) ;;;
  ret this.

Definition set (immutable put : value) : M value :=
  assertImmutable immutable ;;;
  invariant
    (bool_decide (typeof put = TObject)
     && bool_decide (put <> VUndefined)
     && negb (Array_isArray put))
    InvalidPatch ;;;
  new_ImmutableObject [immutable; put].

Definition setProperty (immutableObject : value) (fieldName : string) (putField : value) : M value :=
  put <- alloc KObject ;;
  prop_set put fieldName putField ;;;
  set immutableObject put.

(** The test of the loop is [key !== droppedField && ...]: the method is
    not called for the dropped key. *)
Definition deleteProperty (immutableObject : value) (droppedField : string) : M value :=
  copy <- alloc KObject ;;
  ks <- for_in immutableObject ;;
  forEach ks (fun key =>
    keep <- (if bool_decide (key <> droppedField)
             then hasOwnProperty immutableObject key else ret false) ;;
    if keep then
      v <- prop_get immutableObject key ;; prop_set copy key v
    else ret tt) ;;;
  new_ImmutableObject [copy].

(** The recursion of [_setDeep] follows the object graph, which the heap
    does not force to be well-founded; [fuel] is the depth of call stack
    available. *)
Fixpoint _setDeep (fuel : nat) (obj put : value) : M value :=
  match fuel with
  | O => throw RangeError
  | S fuel' =>
      invariant (checkMergeObjectArgs obj put) MalformedMergePair ;;;
      totalNewFields <- alloc KObject ;;
      ks <- Object_keys obj ;;
      forEach ks (fun key =>
        own <- hasOwnProperty put key ;;
        if negb own then
          v <- prop_get obj key ;; prop_set totalNewFields key v
        else
          ov <- prop_get obj key ;;
          pv <- prop_get put key ;;
          if isTerminal ov || isTerminal pv then
            prop_set totalNewFields key pv
          else
            r <- _setDeep fuel' ov pv ;; prop_set totalNewFields key r) ;;;
      newKeys <- Object_keys put ;;
      forEach newKeys (fun newKey =>
        own <- hasOwnProperty obj newKey ;;
        if own then ret tt
        else v <- prop_get put newKey ;; prop_set totalNewFields newKey v) ;;;
      if instanceof_ImmutableValue obj then new_ImmutableObject [totalNewFields]
      else if instanceof_ImmutableValue put then new_ImmutableObject [totalNewFields]
      else ret totalNewFields
  end.

Definition setDeep (fuel : nat) (immutable put : value) : M value :=
  assertImmutable immutable ;;;
  _setDeep fuel immutable put.

End ImmutableObject.

(** The engine with the helpers of [mergeHelpers] plugged in. *)
Definition setDeep' (dev : bool) : nat -> value -> value -> M value :=
  setDeep dev mergeHelpers.isTerminal mergeHelpers.checkMergeObjectArgs.

Definition _setDeep' (dev : bool) : nat -> value -> value -> M value :=
  _setDeep dev mergeHelpers.isTerminal mergeHelpers.checkMergeObjectArgs.

(** ** The merges as the specification words them *)

(** Shallow merge (spec 4.2): the base's entries, each taking the patch's
    value when the patch has the key, followed by the patch's entries whose
    key the base lacks, in the patch's order. *)
Definition shallow_merge_spec {V} (base patch : list (string * V)) : list (string * V) :=
  map (fun kv => (kv.1, default kv.2 (assoc kv.1 patch))) base
  ++ filter (fun kv => has_key kv.1 base = false) patch.

(** Spec 9: a value is either a leaf or a mapping with ordered entries; a
    mapping records whether it is an Immutable Value. *)
Inductive tree :=
| Leaf (v : value)
| Node (immutable : bool) (entries : list (string * tree)).

Definition is_leaf (t : tree) : bool :=
  match t with Leaf _ => true | Node _ _ => false end.

(** Deep merge (spec 4.2, steps 2 to 4). *)
Fixpoint deep_merge_spec (base patch : tree) {struct base} : tree :=
  match base, patch with
  | Node ib eb, Node ip ep =>
      Node (ib || ip)
        (map (fun kv =>
                (kv.1,
                 match assoc kv.1 ep with
                 | None => kv.2
                 | Some pv =>
                     if is_leaf kv.2 || is_leaf pv then pv
                     else deep_merge_spec kv.2 pv
                 end)) eb
         ++ filter (fun kv => has_key kv.1 eb = false) ep)
  | _, _ => patch
  end.

(** The deep merge with the entries of every merged level in the order in
    which JavaScript lists the keys of an object: it is [deep_merge_spec]
    but for the place of the keys that are array indices. *)
Fixpoint deep_merge_listed (base patch : tree) {struct base} : tree :=
  match base, patch with
  | Node ib eb, Node ip ep =>
      Node (ib || ip)
        (own_order
           (map (fun kv =>
                   (kv.1,
                    match assoc kv.1 ep with
                    | None => kv.2
                    | Some pv =>
                        if is_leaf kv.2 || is_leaf pv then pv
                        else deep_merge_listed kv.2 pv
                    end)) eb
            ++ filter (fun kv => has_key kv.1 eb = false) ep))
  | _, _ => patch
  end.

(** One entry of the base under a patch with entries [ep]. *)
Definition merge_entry (ep : list (string * tree)) (kv : string * tree) : string * tree :=
  (kv.1,
   match assoc kv.1 ep with
   | None => kv.2
   | Some pv => if is_leaf kv.2 || is_leaf pv then pv else deep_merge_listed kv.2 pv
   end).

(** No key of the tree is an array index. *)
Fixpoint unindexed (t : tree) : bool :=
  match t with
  | Leaf _ => true
  | Node _ es =>
      forallb (fun kt => bool_decide (array_index kt.1 = None) && unindexed kt.2) es
  end.

(** An entry of a heap object and the entry of a tree it denotes. *)
Definition entry_reifies (reify_value : value -> option tree)
    (kv : string * value) (kt : string * tree) : Prop :=
  kt.1 = kv.1 /\ reify_value kv.2 = Some kt.2.

(** The keys that do not name a member of [Object.prototype] on which the
    deep merge relies: [hasOwnProperty], the method it calls on its
    arguments, and [__proto__], the accessor that an assignment under that
    key goes to. *)
Definition ordinary (key : string) : bool :=
  bool_decide (key <> "__proto__") && bool_decide (key <> "hasOwnProperty").

(** The tree a value denotes in a heap, the entries of a mapping in the
    order in which JavaScript lists them.  [None] when the value reaches a
    dangling reference, an object with a repeated key or with a key that is
    not [ordinary], a location in [avoid], or nests deeper than [fuel]. *)
Fixpoint reify (avoid : loc -> bool) (fuel : nat) (h : heap) (v : value) : option tree :=
  match v with
  | VRef k l =>
      if mergeHelpers.is_mapping v then
        match fuel with
        | O => None
        | S fuel' =>
            if avoid l then None else
            match h !! l with
            | None => None
            | Some o =>
                if bool_decide (NoDup (keys (props o)))
                   && forallb ordinary (keys (props o)) then
                  es ← mapM (fun kv => t ← reify avoid fuel' h kv.2; Some (kv.1, t))
                            (own_order (props o));
                  Some (Node (instanceof_ImmutableValue v) es)
                else None
            end
        end
      else Some (Leaf v)
  | _ => Some (Leaf v)
  end.

Definition nowhere : loc -> bool := fun _ => false.

(** ** The rest of the module *)

(** [xs.map(f)]; the array that [map] builds is given as the list of its
    elements. *)
Fixpoint mapEach {A B} (xs : list A) (f : A -> M B) : M (list B) :=
  match xs with
  | [] => ret []
  | x :: xs' => y <- f x ;; ys <- mapEach xs' f ;; ret (y :: ys)
  end.

(** [ImmutableObject.apply(thisArg, arguments)]: [ImmutableObject] is
    declared with [class], and the constructor of a class cannot be called
    without [new]. *)
Definition ImmutableObject_apply (thisArg : value) (arguments : list value) : M unit :=
  throw TypeError.

(** [ImmutableObject.create(...arguments)]: [Object.create] makes an
    instance, to which the constructor is then applied as a function. *)
Definition create (arguments : list value) : M value :=
  obj <- alloc KImmutableValue ;;
  ImmutableObject_apply obj arguments ;;;
  ret obj.

(** [ImmutableObject.values(immutable)]. *)
Definition values (immutable : value) : M (list value) :=
  ks <- Object_keys immutable ;;
  mapEach ks (fun key => prop_get immutable key).

(** ** Auxiliary notions for the proofs *)

(** Entries with array-index keys, in ascending order, none below [lo]. *)
Fixpoint ascending {V} (lo : N) (es : list (string * V)) : Prop :=
  match es with
  | [] => True
  | kv :: es' => exists j, array_index kv.1 = Some j /\ (lo <= j)%N /\ ascending j es'
  end.

(** [v] refers to an object that [h0] does not hold. *)
Definition fresh_for (h0 : heap) (v : value) : Prop :=
  match v with VRef _ l => length h0 <= l | _ => False end.

(** Run from any heap that extends [h0], the computation [m] leaves [h0]
    as it is, whether it returns or throws, and what it returns satisfies
    [Q]. *)
Definition keeps (h0 : heap) {A} (m : M A) (Q : A -> Prop) : Prop :=
  forall h, h0 `prefix_of` h ->
    h0 `prefix_of` (m h).2 /\ forall a, (m h).1 = inr a -> Q a.

(** [v] does not refer to location [l]. *)
Definition not_at (l : loc) (v : value) : Prop :=
  match v with VRef _ l' => l' <> l | _ => True end.

(** [v] is not a dangling reference of [h]. *)
Definition allocated (h : heap) (v : value) : Prop :=
  match v with VRef _ l => l < length h | _ => True end.

(** What [Object.assign]-style copying of [src] leaves in a target that
    held [acc]. *)
Definition assigned (src acc : list (string * value)) : list (string * value) :=
  fold_left (fun acc key => upsert key (default VUndefined (assoc key src)) acc)
            (keys src) acc.

(** The loop of [deleteProperty], on entries. *)
Definition keep_unless (droppedField : string) (src acc : list (string * value)) (key : string) :=
  if bool_decide (key <> droppedField) && has_key key src
  then upsert key (default VUndefined (assoc key src)) acc
  else acc.

(** The condition that [set] asserts of its patch. *)
Definition set_accepts (put : value) : bool :=
  bool_decide (typeof put = TObject)
  && bool_decide (put <> VUndefined)
  && negb (Array_isArray put).

(** The second loop of [_setDeep], on entries. *)
Definition add_if_new (base src acc : list (string * value)) (key : string) :=
  if has_key key base then acc
  else upsert key (default VUndefined (assoc key src)) acc.

(** The bodies of the two loops of [_setDeep]. *)
Definition merge_turn (isTerminal : value -> bool) (rec : value -> value -> M value)
    (obj put totalNewFields : value) (key : string) : M unit :=
  own <- hasOwnProperty put key ;;
  if negb own then
    v <- prop_get obj key ;; prop_set totalNewFields key v
  else
    ov <- prop_get obj key ;;
    pv <- prop_get put key ;;
    if isTerminal ov || isTerminal pv then
      prop_set totalNewFields key pv
    else
      r <- rec ov pv ;; prop_set totalNewFields key r.

Definition add_turn (obj put totalNewFields : value) (newKey : string) : M unit :=
  own <- hasOwnProperty obj newKey ;;
  if own then ret tt
  else v <- prop_get put newKey ;; prop_set totalNewFields newKey v.

(** What one entry [kv] of the base becomes: carried forward when the patch
    lacks the key, the patch's value when either side is terminal, a newly
    built value otherwise. *)
Definition field_ok (h : heap) (put : value)
    (kv rv : string * value) : Prop :=
  rv.1 = kv.1 /\
  match assoc kv.1 (own_props h put) with
  | None => rv.2 = kv.2
  | Some pv =>
      if mergeHelpers.isTerminal kv.2 || mergeHelpers.isTerminal pv
      then rv.2 = pv
      else fresh_for h rv.2
  end.

(** What a successful call of [_setDeep] on mappings that denote
    [Node ib eb] and [Node ip ep] amounts to. *)
Definition merged_ok (dev : bool) (av : loc -> bool) (d : nat) (h : heap)
    (obj put : value) (ib : bool) (eb : list (string * tree))
    (ip : bool) (ep : list (string * tree)) : Prop :=
  exists l ext merged o,
    let r := VRef (if ib || ip then KImmutableValue else KObject) l in
    _setDeep' dev d obj put h = (inr r, h ++ ext)
    /\ length h <= l
    /\ (h ++ ext) !! l = Some o
    /\ frozen o = dev && (ib || ip)
    /\ own_order (props o)
       = own_order (merged ++ filter (fun kv => has_key kv.1 (own_props h obj) = false)
                                     (own_props h put))
    /\ NoDup (keys (props o))
    /\ Forall2 (field_ok h put) (own_props h obj) merged
    /\ reify av d (h ++ ext) r = Some (deep_merge_listed (Node ib eb) (Node ip ep)).

(** While a level of [_setDeep] is at work on the heap [h] it was called
    with, its accumulator, at [length h], is off limits, besides what was
    off limits already. *)
Definition off_limits (av : loc -> bool) (h : heap) : loc -> bool :=
  fun l => av l || bool_decide (l = length h).

(** The keys that a loop over [ks] visits before it comes to [key]. *)
Fixpoint before (key : string) (ks : list string) : list string :=
  match ks with
  | [] => []
  | k :: ks' => if decide (k = key) then [] else k :: before key ks'
  end.

(** The moment at which the recursion of [_setDeep], started on
    [(obj, put)] in the heap [h], calls itself on the pair under [path]:
    that pair, and the heap of that moment.  At every level on the way the
    pair of the level has passed the validation, the turns of the loop for
    the keys before the one on the path have returned, and the key on the
    path is one that the patch has as well, with a value on either side that
    is not terminal.  [None] when the merge does not get there. *)
Fixpoint arrive (dev : bool) (isTerminal : value -> bool)
    (checkMergeObjectArgs : value -> value -> bool)
    (fuel : nat) (obj put : value) (path : list string) (h : heap)
    : option (value * value * heap) :=
  match path, fuel with
  | [], _ => Some (obj, put, h)
  | _ :: _, O => None
  | key :: path', S fuel' =>
      if checkMergeObjectArgs obj put then
        let totalNewFields := VRef KObject (length h) in
        let h1 := h ++ [Object false []] in
        match Object_keys obj h1 with
        | (inr ks, _) =>
            if bool_decide (key ∈ ks) then
              match forEach (before key ks)
                      (merge_turn isTerminal
                         (_setDeep dev isTerminal checkMergeObjectArgs fuel')
                         obj put totalNewFields) h1 with
              | (inr _, h2) =>
                  match hasOwnProperty put key h2 with
                  | (inr true, _) =>
                      let ov := default VUndefined (assoc key (own_props h2 obj)) in
                      let pv := default VUndefined (assoc key (own_props h2 put)) in
                      if isTerminal ov || isTerminal pv then None
                      else arrive dev isTerminal checkMergeObjectArgs fuel' ov pv path' h2
                  | _ => None
                  end
              | _ => None
              end
            else None
        | _ => None
        end
      else None
  end.

(** Every object of [h] is found, as it was, in [h']. *)
Definition untouched (h h' : heap) : Prop :=
  forall l o, h !! l = Some o -> h' !! l = Some o.

(** A base with keys [a, b, c] at location 0 and the patch [{b: x, d: y}]
    at location 1. *)
Definition heap_abc : heap :=
  [ Object true [("a", VNumber 1); ("b", VNumber 2); ("c", VNumber 3)];
    Object false [("b", VString "x"); ("d", VString "y")] ].

(** The base of [heap_abc] and an empty patch [{}]. *)
Definition heap_abc_empty : heap :=
  [ Object true [("a", VNumber 1); ("b", VNumber 2); ("c", VNumber 3)];
    Object false [] ].

(** The heap of spec P4: the Immutable Value [{k: {m: 1, n: 2}}] at 0 and
    the patch [{k: {n: 9, p: 3}}] at 2. *)
Definition heap_p4 : heap :=
  [ Object true [("k", VRef KObject 1)];
    Object false [("m", VNumber 1); ("n", VNumber 2)];
    Object false [("k", VRef KObject 3)];
    Object false [("n", VNumber 9); ("p", VNumber 3)] ].

(** The heap of spec P3: the Immutable Value [{k: {m: 1}}] at 0 and the
    patch [{k: 5}] at 2. *)
Definition heap_p3 : heap :=
  [ Object true [("k", VRef KObject 1)];
    Object false [("m", VNumber 1)];
    Object false [("k", VNumber 5)] ].

(** The base of spec P4 and an empty patch [{}] at 2. *)
Definition heap_p8 : heap :=
  [ Object true [("k", VRef KObject 1)];
    Object false [("m", VNumber 1); ("n", VNumber 2)];
    Object false [] ].

(** A classifier that looks at [typeof] only, so that arrays are not
    terminal: with it the recursion reaches pairs that the validation of
    [mergeHelpers] rejects. *)
Definition isTerminal_typeof (v : value) : bool :=
  negb (bool_decide (typeof v = TObject)) || bool_decide (v = VNull).

(** The Immutable Value [{k: [1]}] at 0 and the patch [{k: [2]}] at 2. *)
Definition heap_arrays : heap :=
  [ Object true [("k", VRef KArray 1)];
    Object false [("0", VNumber 1)];
    Object false [("k", VRef KArray 3)];
    Object false [("0", VNumber 2)] ].

(** The plain object [{a: 1, b: 2}] at location 0. *)
Definition heap_plain : heap :=
  [ Object false [("a", VNumber 1); ("b", VNumber 2)] ].

(** The Immutable Value [{a: 1, b: 2}] at location 0 and the patch
    [{1: 9}], its one key an array index, at location 1. *)
Definition heap_ab_1 : heap :=
  [ Object true [("a", VNumber 1); ("b", VNumber 2)];
    Object false [("1", VNumber 9)] ].

(** The Immutable Value [{hasOwnProperty: 1, a: 2}] at location 0. *)
Definition heap_shadowed : heap :=
  [ Object true [("hasOwnProperty", VNumber 1); ("a", VNumber 2)] ].

(** The base of spec P3 and, at location 2, the patch
    [{k: 5, hasOwnProperty: 1}]. *)
Definition heap_p3_shadowed : heap :=
  [ Object true [("k", VRef KObject 1)];
    Object false [("m", VNumber 1)];
    Object false [("k", VNumber 5); ("hasOwnProperty", VNumber 1)] ].

(** The base of spec P4 and, at location 2, the patch [{hasOwnProperty: 1}],
    which lacks the key [k] of the base. *)
Definition heap_p8_shadowed : heap :=
  [ Object true [("k", VRef KObject 1)];
    Object false [("m", VNumber 1); ("n", VNumber 2)];
    Object false [("hasOwnProperty", VNumber 1)] ].

(** The Immutable Value [{a: 1}] at location 0 and the patch [{1: 2}] at
    location 1. *)
Definition heap_a_1 : heap :=
  [ Object true [("a", VNumber 1)];
    Object false [("1", VNumber 2)] ].

(** * Properties *)

(** ** Ordered property lists *)

Lemma filter_ext_elem {A} (P Q : A -> Prop)
    `{!forall x, Decision (P x)} `{!forall x, Decision (Q x)} (l : list A) :
  (forall x, x ∈ l -> P x <-> Q x) -> filter P l = filter Q l.
Proof.
  induction l as [|x l IH]; intros Hext; [done|].
  assert (HPQ : P x <-> Q x) by (apply Hext; left).
  assert (Hl : filter P l = filter Q l) by (apply IH; intros y Hy; apply Hext; by right).
  destruct (decide (P x)) as [HP|HP].
  - rewrite !filter_cons_True by tauto. by rewrite Hl.
  - rewrite !filter_cons_False by tauto. done.
Qed.

Lemma filter_none {A} (P : A -> Prop) `{!forall x, Decision (P x)} (l : list A) :
  (forall x, x ∈ l -> ~ P x) -> filter P l = [].
Proof.
  induction l as [|x l IH]; intros Hall; [done|].
  rewrite filter_cons_False by (apply Hall; left).
  apply IH. intros y Hy. apply Hall. by right.
Qed.

Section assoc_facts.
Context {V : Type}.
Implicit Types (k : string) (v : V) (es src dst base patch : list (string * V)).

Lemma assoc_None k es : assoc k es = None <-> k ∉ keys es.
Proof.
  induction es as [|[k' v'] es IH]; simpl.
  - split; [intros _; apply not_elem_of_nil | done].
  - destruct (decide (k = k')) as [->|Hne].
    + split; [done | intros H; exfalso; apply H; left].
    + rewrite IH, not_elem_of_cons. tauto.
Qed.

Lemma assoc_Some_elem k v es : assoc k es = Some v -> (k, v) ∈ es.
Proof.
  induction es as [|[k' v'] es IH]; simpl; [done|].
  destruct (decide (k = k')) as [->|Hne].
  - intros [= ->]. left.
  - intros H. right. auto.
Qed.

Lemma assoc_Some_key k v es : assoc k es = Some v -> k ∈ keys es.
Proof.
  intros H. apply assoc_Some_elem in H.
  unfold keys. apply list_elem_of_fmap. by exists (k, v).
Qed.

Lemma assoc_NoDup k v es : NoDup (keys es) -> (k, v) ∈ es -> assoc k es = Some v.
Proof.
  induction es as [|[k' v'] es IH]; simpl; intros Hnd Hin.
  - by apply elem_of_nil in Hin.
  - apply NoDup_cons in Hnd as [Hk' Hnd].
    apply elem_of_cons in Hin as [[= -> ->]|Hin].
    + by rewrite decide_True.
    + destruct (decide (k = k')) as [->|Hne]; [|auto].
      exfalso. apply Hk'. apply list_elem_of_fmap. by exists (k', v).
Qed.

Lemma has_key_true k es : has_key k es = true <-> k ∈ keys es.
Proof.
  unfold has_key. destruct (assoc k es) eqn:E.
  - split; [intros _; by eapply assoc_Some_key | done].
  - apply assoc_None in E. split; [done | intros; contradiction].
Qed.

Lemma has_key_false k es : has_key k es = false <-> k ∉ keys es.
Proof.
  rewrite <- has_key_true. destruct (has_key k es); split; congruence.
Qed.

Lemma upsert_fresh k v es : k ∉ keys es -> upsert k v es = es ++ [(k, v)].
Proof.
  induction es as [|[k' v'] es IH]; simpl; [done|].
  intros [Hne Hk]%not_elem_of_cons.
  rewrite decide_False by done. by rewrite IH.
Qed.

Lemma keys_replace_at k v es : keys (replace_at k v es) = keys es.
Proof.
  unfold keys, replace_at. rewrite map_map. apply map_ext.
  intros [k' v']; simpl. by destruct (decide (k' = k)).
Qed.

Lemma replace_at_absent k v es : k ∉ keys es -> replace_at k v es = es.
Proof.
  induction es as [|[k' v'] es IH]; simpl; [done|].
  intros [Hne Hk]%not_elem_of_cons.
  rewrite decide_False by done. f_equal. by apply IH.
Qed.

Lemma upsert_present k v es :
  NoDup (keys es) -> k ∈ keys es -> upsert k v es = replace_at k v es.
Proof.
  induction es as [|[k' v'] es IH]; simpl; intros Hnd Hin.
  - by apply elem_of_nil in Hin.
  - apply NoDup_cons in Hnd as [Hk' Hnd].
    destruct (decide (k = k')) as [->|Hne].
    + rewrite decide_True by done. f_equal.
      symmetry. by apply replace_at_absent.
    + rewrite decide_False by done. f_equal.
      apply elem_of_cons in Hin as [?|Hin]; [done|]. by apply IH.
Qed.

Lemma keys_upsert_fresh k v es : k ∉ keys es -> keys (upsert k v es) = keys es ++ [k].
Proof. intros H. rewrite upsert_fresh by done. unfold keys. by rewrite map_app. Qed.

Lemma NoDup_keys_upsert k v es : NoDup (keys es) -> NoDup (keys (upsert k v es)).
Proof.
  intros Hnd. destruct (decide (k ∈ keys es)) as [Hin|Hnin].
  - rewrite upsert_present, keys_replace_at; done.
  - rewrite keys_upsert_fresh by done.
    apply NoDup_app. split_and!; [done| |apply NoDup_singleton].
    intros x Hx ->%list_elem_of_singleton. done.
Qed.

Lemma assoc_app_l k es1 es2 :
  k ∈ keys es1 -> assoc k (es1 ++ es2) = assoc k es1.
Proof.
  induction es1 as [|[k' v'] es1 IH]; simpl; intros Hin.
  - by apply elem_of_nil in Hin.
  - destruct (decide (k = k')); [done|].
    apply elem_of_cons in Hin as [?|Hin]; [done|]. by apply IH.
Qed.

Lemma assoc_app_r k es1 es2 :
  k ∉ keys es1 -> assoc k (es1 ++ es2) = assoc k es2.
Proof.
  induction es1 as [|[k' v'] es1 IH]; simpl; [done|].
  intros [Hne Hk]%not_elem_of_cons.
  rewrite decide_False by done. by apply IH.
Qed.

Lemma shallow_merge_spec_nil_r es : shallow_merge_spec es [] = es.
Proof.
  unfold shallow_merge_spec. simpl. rewrite app_nil_r.
  induction es as [|[k v] es IH]; simpl; [done|]. by rewrite IH.
Qed.

Lemma shallow_merge_spec_step k v src dst :
  NoDup (keys dst) -> k ∉ keys src ->
  shallow_merge_spec (upsert k v dst) src = shallow_merge_spec dst ((k, v) :: src).
Proof.
  intros Hnd Hk. unfold shallow_merge_spec.
  assert (Hks : assoc k src = None) by by apply assoc_None.
  destruct (decide (k ∈ keys dst)) as [Hin|Hnin].
  - rewrite upsert_present by done.
    rewrite filter_cons_False
      by (simpl; rewrite (proj2 (has_key_true k dst) Hin); done).
    f_equal.
    + unfold replace_at. rewrite map_map. apply map_ext.
      intros [k' v']; simpl.
      destruct (decide (k' = k)) as [->|Hne]; simpl.
      * by rewrite Hks.
      * done.
    + apply list_filter_iff. intros [k' v']; simpl.
      rewrite !has_key_false, keys_replace_at. done.
  - rewrite upsert_fresh by done.
    rewrite map_app; simpl. rewrite Hks; simpl.
    rewrite filter_cons_True by (simpl; by apply has_key_false).
    rewrite <- app_assoc; simpl. f_equal.
    + apply map_ext_in. intros [k' v'] Hin; simpl.
      destruct (decide (k' = k)) as [->|Hne]; [|done].
      exfalso. apply Hnin. apply list_elem_of_In in Hin.
      apply list_elem_of_fmap. by exists (k, v').
    + f_equal. apply filter_ext_elem.
      intros [k' v'] Hin; simpl.
      rewrite !has_key_false. unfold keys. rewrite map_app; simpl.
      rewrite not_elem_of_app, list_elem_of_singleton.
      split; [tauto|]. intros H; split; [done|]. intros ->.
      apply Hk. apply list_elem_of_fmap. by exists (k, v').
Qed.

Lemma write_all_spec src dst :
  NoDup (keys src) -> NoDup (keys dst) ->
  write_all src dst = shallow_merge_spec dst src.
Proof.
  revert dst. induction src as [|[k v] src IH]; intros dst Hs Hd; simpl.
  - by rewrite shallow_merge_spec_nil_r.
  - apply NoDup_cons in Hs as [Hk Hs]. unfold write_all in *; simpl.
    rewrite IH by auto using NoDup_keys_upsert.
    by apply shallow_merge_spec_step.
Qed.

Lemma write_all_nil_dst src : NoDup (keys src) -> write_all src [] = src.
Proof.
  intros H. rewrite (write_all_spec src []); [|done|apply NoDup_nil_2].
  unfold shallow_merge_spec; simpl.
  induction src as [|kv src IH]; [done|].
  rewrite filter_cons_True by done. f_equal.
  apply NoDup_cons in H as [_ H]. auto.
Qed.

Lemma keys_shallow_merge_spec base patch :
  keys (shallow_merge_spec base patch)
  = keys base ++ filter (fun k => k ∉ keys base) (keys patch).
Proof.
  unfold shallow_merge_spec, keys. rewrite map_app, map_map; simpl.
  f_equal. induction patch as [|[k v] patch IH]; simpl; [done|].
  destruct (decide (k ∈ map fst base)) as [Hin|Hnin].
  - rewrite filter_cons_False
      by (simpl; rewrite (proj2 (has_key_true k base) Hin); done).
    rewrite (filter_cons_False _ k) by (intros H; by apply H). done.
  - rewrite filter_cons_True by (simpl; by apply has_key_false).
    rewrite (filter_cons_True _ k) by done. simpl. by rewrite IH.
Qed.

Lemma assoc_map_values (f : string * V -> V) k es :
  assoc k (map (fun kv => (kv.1, f kv)) es)
  = match assoc k es with Some v => Some (f (k, v)) | None => None end.
Proof.
  induction es as [|[k' v'] es IH]; simpl; [done|].
  destruct (decide (k = k')) as [->|]; done.
Qed.

Lemma assoc_filter_absent (P : string * V -> Prop) `{!forall x, Decision (P x)} k v es :
  assoc k es = Some v -> (forall v', P (k, v')) -> assoc k (filter P es) = Some v.
Proof.
  induction es as [|[k' v'] es IH]; simpl; [done|]. intros Hk HP.
  destruct (decide (k = k')) as [->|Hne].
  - rewrite filter_cons_True by auto. simpl. by rewrite decide_True.
  - destruct (decide (P (k', v'))).
    + rewrite filter_cons_True by done. simpl. rewrite decide_False by done. auto.
    + rewrite filter_cons_False by done. auto.
Qed.

(** What a key reads after a shallow merge. *)
Lemma assoc_shallow_merge_spec k base patch :
  assoc k (shallow_merge_spec base patch)
  = match assoc k patch with Some v => Some v | None => assoc k base end.
Proof.
  unfold shallow_merge_spec.
  destruct (decide (k ∈ keys base)) as [Hin|Hnin].
  - rewrite assoc_app_l.
    2:{ unfold keys. rewrite map_map; simpl. done. }
    rewrite (assoc_map_values (fun kv => default kv.2 (assoc kv.1 patch))).
    apply has_key_true in Hin. unfold has_key in Hin.
    destruct (assoc k base) as [bv|]; [|done]. simpl.
    by destruct (assoc k patch).
  - rewrite assoc_app_r.
    2:{ unfold keys. rewrite map_map; simpl. done. }
    pose proof Hnin as Hb. apply assoc_None in Hb. rewrite Hb.
    destruct (assoc k patch) as [pv|] eqn:Hp.
    + apply assoc_filter_absent; [done|]. intros v'; simpl.
      by apply has_key_false.
    + apply assoc_None. apply assoc_None in Hp.
      intros Hin. apply Hp. unfold keys in *.
      apply list_elem_of_fmap in Hin as [x [-> Hx]].
      apply list_elem_of_filter in Hx as [_ Hx].
      apply list_elem_of_fmap. by exists x.
Qed.

End assoc_facts.

(** ** The order of own keys *)

Section order_facts.
Context {V : Type}.
Implicit Types (kv : string * V) (es acc : list (string * V)).

Lemma ascending_weaken lo lo' es : (lo' <= lo)%N -> ascending lo es -> ascending lo' es.
Proof.
  destruct es as [|kv es]; [done|]. simpl. intros Hle (j & Hj & Hlo & Hes).
  exists j. split_and!; [done|lia|done].
Qed.

Lemma place_ascending_head i kv es : ascending i es -> place i kv es = kv :: es.
Proof.
  destruct es as [|kv' es]; [done|]. simpl. intros (j & -> & Hle & _).
  by rewrite (proj2 (N.leb_le i j) Hle).
Qed.

Lemma place_ascending lo i kv es :
  array_index kv.1 = Some i -> (lo <= i)%N ->
  ascending lo es -> ascending lo (place i kv es).
Proof.
  intros Hi. revert lo. induction es as [|kv' es IH]; intros lo Hlo Hes; simpl.
  - exists i. done.
  - destruct Hes as (j & Hj & Hle & Hes). rewrite Hj.
    destruct (N.leb_spec i j) as [Hij|Hij]; simpl.
    + exists i. split_and!; [done|done|]. exists j. done.
    + exists j. split_and!; [done|done|]. apply IH; [lia|done].
Qed.

Lemma indexed_ascending es : ascending 0 (indexed es).
Proof.
  induction es as [|kv es IH]; simpl; [done|].
  destruct (array_index kv.1) as [i|] eqn:Hi; [|done].
  apply place_ascending; [done|lia|done].
Qed.

Lemma place_Permutation i kv es : place i kv es ≡ₚ kv :: es.
Proof.
  induction es as [|kv' es IH]; simpl; [done|].
  destruct (array_index kv'.1) as [j|]; [|done].
  destruct (i <=? j)%N; [done|]. rewrite IH. apply Permutation_swap.
Qed.

Lemma indexed_Permutation es :
  indexed es ≡ₚ filter (fun kv => array_index kv.1 <> None) es.
Proof.
  induction es as [|kv es IH]; simpl; [done|].
  destruct (array_index kv.1) as [i|] eqn:Hi.
  - rewrite filter_cons_True by (by rewrite Hi). rewrite place_Permutation. by rewrite IH.
  - rewrite filter_cons_False by (rewrite Hi; by intros H). done.
Qed.

Lemma own_order_Permutation es : own_order es ≡ₚ es.
Proof.
  unfold own_order. rewrite indexed_Permutation.
  induction es as [|kv es IH]; [done|].
  destruct (array_index kv.1) as [i|] eqn:Hi.
  - rewrite filter_cons_True by (by rewrite Hi).
    rewrite filter_cons_False by (rewrite Hi; by intros H). simpl. by rewrite IH.
  - rewrite filter_cons_False by (rewrite Hi; by intros H).
    rewrite filter_cons_True by done.
    rewrite <- Permutation_middle. by rewrite IH.
Qed.

Lemma keys_own_order_Permutation es : keys (own_order es) ≡ₚ keys es.
Proof. unfold keys. apply fmap_Permutation, own_order_Permutation. Qed.

Lemma NoDup_keys_own_order es : NoDup (keys es) <-> NoDup (keys (own_order es)).
Proof. by rewrite keys_own_order_Permutation. Qed.

Lemma indexed_none es :
  Forall (fun kv => array_index kv.1 = None) es -> indexed es = [].
Proof.
  induction 1 as [|kv es Hkv _ IH]; simpl; [done|]. by rewrite Hkv.
Qed.

(** Without array indices among the keys, the order is that of creation. *)
Lemma own_order_plain es :
  Forall (fun kv => array_index kv.1 = None) es -> own_order es = es.
Proof.
  intros H. unfold own_order. rewrite indexed_none by done. simpl.
  induction H as [|kv es Hkv _ IH]; [done|].
  rewrite filter_cons_True by done. by rewrite IH.
Qed.

Lemma indexed_app_none es1 es2 :
  Forall (fun kv => array_index kv.1 = None) es2 -> indexed (es1 ++ es2) = indexed es1.
Proof.
  intros H. unfold indexed. rewrite foldr_app. fold (indexed es2).
  by rewrite indexed_none.
Qed.

Lemma indexed_fixed lo es : ascending lo es -> indexed es = es.
Proof.
  revert lo. induction es as [|kv es IH]; intros lo; simpl; [done|].
  intros (j & -> & _ & Hes). rewrite (IH j Hes). by apply place_ascending_head.
Qed.

Lemma ascending_indices lo es : ascending lo es -> Forall (fun kv => array_index kv.1 <> None) es.
Proof.
  revert lo. induction es as [|kv es IH]; intros lo; simpl; [constructor|].
  intros (j & Hj & _ & Hes). constructor; [by rewrite Hj|eauto].
Qed.

(** Listing in order what is listed in order changes nothing. *)
Lemma own_order_idem es : own_order (own_order es) = own_order es.
Proof.
  unfold own_order at 1.
  assert (Hrest : Forall (fun kv => array_index kv.1 = None)
                    (filter (fun kv => array_index kv.1 = None) es)).
  { apply Forall_forall. by intros kv [? _]%list_elem_of_filter. }
  unfold own_order. rewrite indexed_app_none by done.
  rewrite (indexed_fixed 0) by apply indexed_ascending.
  f_equal. rewrite filter_app.
  rewrite (filter_none _ (indexed es)).
  2:{ intros kv Hin.
      pose proof (ascending_indices 0 _ (indexed_ascending es)) as Hall.
      rewrite Forall_forall in Hall. by apply Hall. }
  simpl. symmetry. rewrite list_filter_filter. apply list_filter_iff. intros kv. tauto.
Qed.

Lemma filter_ascending (P : string * V -> Prop) `{!forall x, Decision (P x)} lo es :
  ascending lo es -> ascending lo (filter P es).
Proof.
  revert lo. induction es as [|kv es IH]; intros lo; [done|].
  simpl. intros (j & Hj & Hlo & Hes).
  destruct (decide (P kv)).
  - rewrite filter_cons_True by done. exists j. split_and!; [done|done|]. by apply IH.
  - rewrite filter_cons_False by done.
    apply (ascending_weaken j); [done|]. by apply IH.
Qed.

Lemma filter_place (P : string * V -> Prop) `{!forall x, Decision (P x)} lo i kv es :
  ascending lo es ->
  filter P (place i kv es)
  = if decide (P kv) then place i kv (filter P es) else filter P es.
Proof.
  revert lo. induction es as [|kv' es IH]; intros lo; simpl.
  - intros _. destruct (decide (P kv)).
    + by rewrite filter_cons_True.
    + by rewrite filter_cons_False.
  - intros (j & Hj & Hlo & Hes). rewrite Hj.
    destruct (N.leb_spec i j) as [Hij|Hij].
    + destruct (decide (P kv)).
      * rewrite filter_cons_True by done.
        symmetry. apply place_ascending_head.
        apply (filter_ascending P). simpl. exists j. done.
      * by rewrite filter_cons_False.
    + destruct (decide (P kv')).
      * rewrite !filter_cons_True by done. rewrite (IH j Hes).
        destruct (decide (P kv)); [|done]. simpl. rewrite Hj.
        by rewrite (proj2 (N.leb_gt i j) Hij).
      * rewrite !filter_cons_False by done. by apply (IH j).
Qed.

(** Dropping entries and listing in order commute. *)
Lemma own_order_filter (P : string * V -> Prop) `{!forall x, Decision (P x)} es :
  own_order (filter P es) = filter P (own_order es).
Proof.
  unfold own_order. rewrite filter_app. f_equal.
  - induction es as [|kv es IH]; [done|]. simpl.
    destruct (decide (P kv)).
    + rewrite filter_cons_True by done. simpl.
      destruct (array_index kv.1) as [i|]; [|done].
      rewrite (filter_place P 0) by apply indexed_ascending.
      rewrite decide_True by done. by rewrite IH.
    + rewrite filter_cons_False by done.
      destruct (array_index kv.1) as [i|]; [|done].
      rewrite (filter_place P 0) by apply indexed_ascending.
      by rewrite decide_False.
  - rewrite !list_filter_filter. apply list_filter_iff. intros kv. tauto.
Qed.

Lemma assoc_Permutation es es' k :
  NoDup (keys es) -> es ≡ₚ es' -> assoc k es = assoc k es'.
Proof.
  intros Hnd Hp.
  assert (Hnd' : NoDup (keys es')) by (unfold keys in *; by rewrite <- Hp).
  destruct (assoc k es) as [v|] eqn:E.
  - symmetry. apply assoc_NoDup; [done|]. rewrite <- Hp. by apply assoc_Some_elem.
  - symmetry. apply assoc_None. apply assoc_None in E.
    unfold keys in *. by rewrite <- Hp.
Qed.

(** A key reads the same whatever the order of the entries. *)
Lemma assoc_own_order es k : NoDup (keys es) -> assoc k (own_order es) = assoc k es.
Proof.
  intros Hnd. symmetry. apply assoc_Permutation; [done|].
  symmetry. apply own_order_Permutation.
Qed.

Lemma elem_of_keys_own_order es k : k ∈ keys (own_order es) <-> k ∈ keys es.
Proof. by rewrite keys_own_order_Permutation. Qed.

End order_facts.

(** Entries that correspond key by key are listed in the same order. *)
Lemma place_Forall2 {A B} (R : string * A -> string * B -> Prop) i kv kv' es es' :
  (forall x y, R x y -> y.1 = x.1) ->
  R kv kv' -> Forall2 R es es' -> Forall2 R (place i kv es) (place i kv' es').
Proof.
  intros HR Hkv. induction 1 as [|x y es es' Hxy Hes IH]; simpl.
  - by constructor.
  - rewrite (HR _ _ Hxy). destruct (array_index x.1) as [j|].
    + destruct (i <=? j)%N.
      * constructor; [done|]. by constructor.
      * by constructor.
    + constructor; [done|]. by constructor.
Qed.

Lemma own_order_Forall2 {A B} (R : string * A -> string * B -> Prop) es es' :
  (forall x y, R x y -> y.1 = x.1) ->
  Forall2 R es es' -> Forall2 R (own_order es) (own_order es').
Proof.
  intros HR H. unfold own_order. apply Forall2_app.
  - induction H as [|x y es es' Hxy _ IH]; simpl; [constructor|].
    rewrite (HR _ _ Hxy). destruct (array_index x.1); [|done].
    by apply place_Forall2.
  - induction H as [|x y es es' Hxy _ IH]; [constructor|].
    destruct (decide (array_index x.1 = None)) as [Hx|Hx].
    + rewrite !filter_cons_True by (by rewrite ?(HR _ _ Hxy)). by constructor.
    + rewrite !filter_cons_False by (by rewrite ?(HR _ _ Hxy)). done.
Qed.

(** ** Writes stay in the freshly allocated part of the heap *)

Section keeps.
Variable h0 : heap.

Lemma keeps_ret {A} (a : A) (Q : A -> Prop) : Q a -> keeps h0 (ret a) Q.
Proof. intros HQ h Hh; simpl. split; [done|]. by intros ? [= <-]. Qed.

Lemma keeps_throw {A} e (Q : A -> Prop) : keeps h0 (throw e) Q.
Proof. intros h Hh; simpl. split; [done|]. by intros ? [=]. Qed.

Lemma keeps_gets {A} (f : heap -> A) : keeps h0 (gets f) (fun _ => True).
Proof. intros h Hh; simpl. done. Qed.

Lemma keeps_weaken {A} (m : M A) (Q R : A -> Prop) :
  keeps h0 m Q -> (forall a, Q a -> R a) -> keeps h0 m R.
Proof. intros Hm HQR h Hh. destruct (Hm h Hh) as [? HQ]. split; eauto. Qed.

Lemma keeps_bind {A B} (m : M A) (f : A -> M B) (Q : A -> Prop) (R : B -> Prop) :
  keeps h0 m Q -> (forall a, Q a -> keeps h0 (f a) R) -> keeps h0 (bind m f) R.
Proof.
  intros Hm Hf h Hh. unfold bind.
  destruct (Hm h Hh) as [Hpre HQ].
  destruct (m h) as [[e|a] h1]; simpl in *.
  - split; [done|]. by intros ? [=].
  - apply Hf; auto.
Qed.

Lemma keeps_invariant c e : keeps h0 (invariant c e) (fun _ => True).
Proof. destruct c; simpl; [by apply keeps_ret | apply keeps_throw]. Qed.

Lemma keeps_alloc k : keeps h0 (alloc k) (fresh_for h0).
Proof.
  intros h Hh; simpl. split; [by apply prefix_app_r|].
  intros ? [= <-]; simpl. by apply prefix_length.
Qed.

Lemma prefix_insert_fresh (h : heap) l o :
  h0 `prefix_of` h -> length h0 <= l -> h0 `prefix_of` <[l := o]> h.
Proof.
  intros [ext ->] Hl. rewrite insert_app_r_alt by done. by eexists.
Qed.

Lemma keeps_define_own target key v :
  fresh_for h0 target -> keeps h0 (define_own target key v) (fun _ => True).
Proof.
  intros Hf h Hh. destruct target as [| | | | |k l]; try done; simpl in *.
  destruct (h !! l) as [o|]; [|done].
  destruct (frozen o); simpl; [done|].
  split; [|done]. by apply prefix_insert_fresh.
Qed.

Lemma keeps_prop_set target key v :
  fresh_for h0 target -> keeps h0 (prop_set target key v) (fun _ => True).
Proof.
  intros Hf. destruct target as [| | | | |k l]; try done. unfold prop_set.
  case_bool_decide.
  - destruct v; first [apply keeps_throw | by apply keeps_ret].
  - destruct (hidden _ _); [apply keeps_throw|]. by apply keeps_define_own.
Qed.

Lemma keeps_for_in v : keeps h0 (for_in v) (fun _ => True).
Proof. apply keeps_gets. Qed.

Lemma keeps_Object_keys v : keeps h0 (Object_keys v) (fun _ => True).
Proof. destruct v; first [apply keeps_throw | apply keeps_gets]. Qed.

Lemma keeps_hasOwnProperty v key : keeps h0 (hasOwnProperty v key) (fun _ => True).
Proof.
  intros h Hh. unfold hasOwnProperty.
  destruct v; try done;
    (destruct (assoc _ _) as [[| | | | |[] ?]|]; try done; by destruct (hidden _ _)).
Qed.

Lemma keeps_prop_get v key : keeps h0 (prop_get v key) (fun _ => True).
Proof. apply keeps_gets. Qed.

Lemma keeps_deepFreezeRootNode target :
  fresh_for h0 target -> keeps h0 (deepFreezeRootNode target) (fun _ => True).
Proof.
  intros Hf h Hh. destruct target as [| | | | |k l]; try done; simpl in *.
  destruct (h !! l) as [o|]; [|done]; simpl.
  split; [|done]. by apply prefix_insert_fresh.
Qed.

Lemma keeps_forEach {A} (xs : list A) (body : A -> M unit) :
  (forall x, keeps h0 (body x) (fun _ => True)) ->
  keeps h0 (forEach xs body) (fun _ => True).
Proof.
  intros Hbody. induction xs as [|x xs IH]; simpl.
  - by apply keeps_ret.
  - eapply keeps_bind; [apply Hbody|]. intros _ _. apply IH.
Qed.

Lemma keeps_assign destination source :
  fresh_for h0 destination -> keeps h0 (assign destination source) (fun _ => True).
Proof.
  intros Hf. unfold assign.
  destruct source; try (by apply keeps_ret).
  eapply keeps_bind; [apply keeps_for_in|]. intros ks _.
  apply keeps_forEach. intros key.
  eapply keeps_bind; [apply keeps_prop_get|]. intros v _.
  by apply keeps_define_own.
Qed.

Lemma keeps_new_ImmutableObject dev arguments :
  keeps h0 (new_ImmutableObject dev arguments) (fresh_for h0).
Proof.
  unfold new_ImmutableObject, mergeAllPropertiesInto.
  eapply keeps_bind; [apply keeps_alloc|]. intros this Hthis.
  eapply keeps_bind.
  { apply keeps_forEach. intros src. by apply keeps_assign. }
  intros _ _. eapply keeps_bind.
  { destruct dev; [by apply keeps_deepFreezeRootNode | by apply keeps_ret]. }
  intros _ _. by apply keeps_ret.
Qed.

Lemma keeps_set dev immutable put :
  keeps h0 (set dev immutable put) (fresh_for h0).
Proof.
  unfold set, assertImmutable.
  eapply keeps_bind; [apply keeps_invariant|]. intros _ _.
  eapply keeps_bind; [apply keeps_invariant|]. intros _ _.
  apply keeps_new_ImmutableObject.
Qed.

Lemma keeps_setProperty dev immutableObject fieldName putField :
  keeps h0 (setProperty dev immutableObject fieldName putField) (fresh_for h0).
Proof.
  unfold setProperty.
  eapply keeps_bind; [apply keeps_alloc|]. intros put Hput.
  eapply keeps_bind; [by apply keeps_prop_set|]. intros _ _.
  apply keeps_set.
Qed.

Lemma keeps_deleteProperty dev immutableObject droppedField :
  keeps h0 (deleteProperty dev immutableObject droppedField) (fresh_for h0).
Proof.
  unfold deleteProperty.
  eapply keeps_bind; [apply keeps_alloc|]. intros copy Hcopy.
  eapply keeps_bind; [apply keeps_for_in|]. intros ks _.
  eapply keeps_bind.
  { apply keeps_forEach. intros key.
    eapply keeps_bind.
    { case_bool_decide; [apply keeps_hasOwnProperty | by apply (keeps_ret false)]. }
    intros keep _. destruct keep.
    - eapply keeps_bind; [apply keeps_prop_get|]. intros v _.
      by apply keeps_prop_set.
    - by apply keeps_ret. }
  intros _ _. apply keeps_new_ImmutableObject.
Qed.

Lemma keeps_merge_turn isTerminal rec obj put totalNewFields key :
  (forall a b, keeps h0 (rec a b) (fun _ => True)) ->
  fresh_for h0 totalNewFields ->
  keeps h0 (merge_turn isTerminal rec obj put totalNewFields key) (fun _ => True).
Proof.
  intros Hrec Hf. unfold merge_turn.
  eapply keeps_bind; [apply keeps_hasOwnProperty|]. intros own _.
  destruct (negb own).
  - eapply keeps_bind; [apply keeps_prop_get|]. intros v _. by apply keeps_prop_set.
  - eapply keeps_bind; [apply keeps_prop_get|]. intros ov _.
    eapply keeps_bind; [apply keeps_prop_get|]. intros pv _.
    destruct (isTerminal ov || isTerminal pv).
    + by apply keeps_prop_set.
    + eapply keeps_bind; [apply Hrec|]. intros r _. by apply keeps_prop_set.
Qed.

Lemma keeps_add_turn obj put totalNewFields newKey :
  fresh_for h0 totalNewFields ->
  keeps h0 (add_turn obj put totalNewFields newKey) (fun _ => True).
Proof.
  intros Hf. unfold add_turn.
  eapply keeps_bind; [apply keeps_hasOwnProperty|]. intros own _.
  destruct own; [by apply keeps_ret|].
  eapply keeps_bind; [apply keeps_prop_get|]. intros v _.
  by apply keeps_prop_set.
Qed.

Lemma _setDeep_unfold dev isTerminal checkMergeObjectArgs fuel obj put :
  _setDeep dev isTerminal checkMergeObjectArgs (S fuel) obj put
  = (invariant (checkMergeObjectArgs obj put) MalformedMergePair ;;;
     totalNewFields <- alloc KObject ;;
     ks <- Object_keys obj ;;
     forEach ks (merge_turn isTerminal
                   (_setDeep dev isTerminal checkMergeObjectArgs fuel)
                   obj put totalNewFields) ;;;
     newKeys <- Object_keys put ;;
     forEach newKeys (add_turn obj put totalNewFields) ;;;
     if instanceof_ImmutableValue obj then new_ImmutableObject dev [totalNewFields]
     else if instanceof_ImmutableValue put then new_ImmutableObject dev [totalNewFields]
     else ret totalNewFields).
Proof. reflexivity. Qed.

Lemma keeps__setDeep dev isTerminal checkMergeObjectArgs fuel obj put :
  keeps h0 (_setDeep dev isTerminal checkMergeObjectArgs fuel obj put) (fun _ => True).
Proof.
  revert obj put. induction fuel as [|fuel IH]; intros obj put.
  - apply keeps_throw.
  - rewrite _setDeep_unfold.
    eapply keeps_bind; [apply keeps_invariant|]. intros _ _.
    eapply keeps_bind; [apply keeps_alloc|]. intros totalNewFields Hnew.
    eapply keeps_bind; [apply keeps_Object_keys|]. intros ks _.
    eapply keeps_bind.
    { apply keeps_forEach. intros key. by apply keeps_merge_turn. }
    intros _ _.
    eapply keeps_bind; [apply keeps_Object_keys|]. intros newKeys _.
    eapply keeps_bind.
    { apply keeps_forEach. intros newKey. by apply keeps_add_turn. }
    intros _ _.
    destruct (instanceof_ImmutableValue obj);
      [|destruct (instanceof_ImmutableValue put)].
    + eapply keeps_weaken; [apply keeps_new_ImmutableObject|done].
    + eapply keeps_weaken; [apply keeps_new_ImmutableObject|done].
    + by apply keeps_ret.
Qed.

Lemma keeps_setDeep dev isTerminal checkMergeObjectArgs fuel immutable put :
  keeps h0 (setDeep dev isTerminal checkMergeObjectArgs fuel immutable put) (fun _ => True).
Proof.
  unfold setDeep, assertImmutable.
  eapply keeps_bind; [apply keeps_invariant|]. intros _ _.
  apply keeps__setDeep.
Qed.

End keeps.

(** ** Running the primitives *)

Lemma bind_run_ok {A B} (m : M A) (f : A -> M B) h a h1 :
  m h = (inr a, h1) -> bind m f h = f a h1.
Proof. intros H. unfold bind. by rewrite H. Qed.

Lemma bind_run_err {A B} (m : M A) (f : A -> M B) h e h1 :
  m h = (inl e, h1) -> bind m f h = (inl e, h1).
Proof. intros H. unfold bind. by rewrite H. Qed.

Lemma lookup_last (h : heap) o : (h ++ [o]) !! length h = Some o.
Proof. by apply list_lookup_middle. Qed.

Lemma insert_last (h : heap) o o' : <[length h := o']> (h ++ [o]) = h ++ [o'].
Proof. rewrite insert_app_r_alt by done. by rewrite Nat.sub_diag. Qed.

Lemma allocated_not_at h v l : allocated h v -> length h <= l -> not_at l v.
Proof. destruct v; simpl; try done. lia. Qed.

Lemma own_props_insert_ne h l o v :
  not_at l v -> own_props (<[l := o]> h) v = own_props h v.
Proof.
  destruct v as [| | | | |k l']; simpl; try done.
  intros Hne. by rewrite list_lookup_insert_ne.
Qed.

Lemma own_props_app h ext v :
  allocated h v -> own_props (h ++ ext) v = own_props h v.
Proof.
  destruct v as [| | | | |k l]; simpl; try done.
  intros Hl. by rewrite lookup_app_l.
Qed.

Lemma own_props_prefix h h' v :
  h `prefix_of` h' -> allocated h v -> own_props h' v = own_props h v.
Proof. intros [ext ->]. apply own_props_app. Qed.

Lemma own_props_lookup h k l o :
  h !! l = Some o -> own_props h (VRef k l) = own_order (props o).
Proof. intros H; simpl. by rewrite H. Qed.

Lemma ordinary_spec key :
  ordinary key = true <-> key <> "__proto__" /\ key <> "hasOwnProperty".
Proof.
  unfold ordinary. rewrite !andb_true_iff, !bool_decide_eq_true. tauto.
Qed.

Lemma ordinary_elem (es : list (string * value)) key :
  forallb ordinary (keys es) = true -> key ∈ keys es -> ordinary key = true.
Proof. rewrite forallb_forall. intros H Hin. by apply H, list_elem_of_In. Qed.

Lemma ordinary_own_order (es : list (string * value)) :
  forallb ordinary (keys es) = true -> forallb ordinary (keys (own_order es)) = true.
Proof.
  rewrite !forallb_forall. intros H k Hin. apply H.
  apply list_elem_of_In. apply list_elem_of_In in Hin.
  by apply elem_of_keys_own_order.
Qed.

Lemma define_own_run k (h : heap) acc exti key v :
  define_own (VRef k (length h)) key v (h ++ Object false acc :: exti)
  = (inr tt, h ++ Object false (upsert key v acc) :: exti).
Proof.
  unfold define_own. rewrite list_lookup_middle by done. simpl.
  rewrite insert_app_r_alt by done. by rewrite Nat.sub_diag.
Qed.

(** An assignment to a plain object, under a key other than [__proto__],
    writes the entry. *)
Lemma prop_set_define_own l key v :
  key <> "__proto__" -> prop_set (VRef KObject l) key v = define_own (VRef KObject l) key v.
Proof. intros Hk. unfold prop_set. by rewrite bool_decide_false. Qed.

Lemma prop_set_run (h : heap) acc exti key v :
  key <> "__proto__" ->
  prop_set (VRef KObject (length h)) key v (h ++ Object false acc :: exti)
  = (inr tt, h ++ Object false (upsert key v acc) :: exti).
Proof. intros Hk. rewrite prop_set_define_own by done. apply define_own_run. Qed.

(** The method [hasOwnProperty] of an object that has no own property of
    that name, asked about a key that is not one of its hidden ones. *)
Lemma hasOwnProperty_run h k l key :
  assoc "hasOwnProperty" (own_props h (VRef k l)) = None ->
  hidden (VRef k l) key = false ->
  hasOwnProperty (VRef k l) key h = (inr (has_key key (own_props h (VRef k l))), h).
Proof. intros Hno Hh. unfold hasOwnProperty. by rewrite Hno, Hh. Qed.

Lemma assigned_from src rest acc :
  (forall kv, kv ∈ rest -> assoc kv.1 src = Some kv.2) ->
  fold_left (fun acc key => upsert key (default VUndefined (assoc key src)) acc)
            (keys rest) acc
  = write_all rest acc.
Proof.
  revert acc. induction rest as [|[k v] rest IH]; intros acc Hall; [done|].
  unfold write_all; simpl.
  pose proof (Hall (k, v) ltac:(left)) as Hk; simpl in Hk. rewrite Hk; simpl.
  apply IH. intros kv Hin. apply Hall. by right.
Qed.

Lemma assigned_write_all src acc :
  NoDup (keys src) -> assigned src acc = write_all src acc.
Proof.
  intros Hnd. apply assigned_from.
  intros [k v] Hin. by apply assoc_NoDup.
Qed.

Lemma assigned_nil acc : assigned [] acc = acc.
Proof. done. Qed.

Lemma assign_loop k l source ks : forall h o,
  h !! l = Some o -> frozen o = false -> not_at l source ->
  forEach ks (fun key => v <- prop_get source key ;; define_own (VRef k l) key v) h
  = (inr tt,
     <[l := Object false
              (fold_left (fun acc key =>
                            upsert key (default VUndefined (assoc key (own_props h source))) acc)
                         ks (props o))]> h).
Proof.
  induction ks as [|key ks IH]; intros h o Hl Hfr Hsrc; simpl.
  - unfold ret. f_equal. symmetry. apply list_insert_id.
    rewrite Hl. destruct o; simpl in *; by subst.
  - unfold bind at 1. unfold bind at 1. simpl. rewrite Hl, Hfr.
    set (o1 := Object false (upsert key _ (props o))).
    rewrite (IH (<[l := o1]> h) o1).
    + simpl. rewrite list_insert_insert_eq. by rewrite own_props_insert_ne.
    + apply list_lookup_insert_eq. by eapply lookup_lt_Some.
    + done.
    + done.
Qed.

(** A source that is an object, or that, like [null], has no entries. *)
Lemma assign_run k l source h o :
  h !! l = Some o -> frozen o = false -> not_at l source ->
  typeof source = TObject ->
  assign (VRef k l) source h
  = (inr tt, <[l := Object false (assigned (own_props h source) (props o))]> h).
Proof.
  intros Hl Hfr Hsrc Hty. unfold assign.
  destruct source as [| | | | |ks ls]; try done.
  - unfold ret. simpl. f_equal. symmetry. apply list_insert_id.
    rewrite Hl. destruct o; simpl in *; by subst.
  - rewrite (bind_run_ok _ _ h (keys (own_props h (VRef ks ls))) h) by done.
    by erewrite assign_loop.
Qed.

(** [new ImmutableObject(a)] and [new ImmutableObject(a, b)]: one fresh
    object at the end of the heap, holding the sources' entries. *)
Lemma new_ImmutableObject_one dev a h :
  allocated h a -> typeof a = TObject ->
  new_ImmutableObject dev [a] h
  = (inr (VRef KImmutableValue (length h)),
     h ++ [Object dev (assigned (own_props h a) [])]).
Proof.
  intros Ha Hta. unfold new_ImmutableObject, mergeAllPropertiesInto.
  rewrite (bind_run_ok _ _ _ _ _ (eq_refl : alloc KImmutableValue h = (_, _))).
  simpl forEach.
  pose proof (allocated_not_at _ _ (length h) Ha (le_n _)) as Hna.
  erewrite bind_run_ok; cycle 1.
  { erewrite bind_run_ok; [reflexivity|].
    apply assign_run; [apply lookup_last|done|done|done]. }
  rewrite own_props_app by done. simpl props. rewrite insert_last.
  destruct dev; [|done].
  unfold bind, deepFreezeRootNode, ret.
  rewrite lookup_last. simpl. by rewrite insert_last.
Qed.

Lemma new_ImmutableObject_two dev a b h :
  allocated h a -> allocated h b -> typeof a = TObject -> typeof b = TObject ->
  new_ImmutableObject dev [a; b] h
  = (inr (VRef KImmutableValue (length h)),
     h ++ [Object dev (assigned (own_props h b) (assigned (own_props h a) []))]).
Proof.
  intros Ha Hb Hta Htb. unfold new_ImmutableObject, mergeAllPropertiesInto.
  rewrite (bind_run_ok _ _ _ _ _ (eq_refl : alloc KImmutableValue h = (_, _))).
  simpl forEach.
  pose proof (allocated_not_at _ _ (length h) Ha (le_n _)) as Hna.
  pose proof (allocated_not_at _ _ (length h) Hb (le_n _)) as Hnb.
  erewrite bind_run_ok; cycle 1.
  { erewrite bind_run_ok; cycle 1.
    { apply assign_run; [apply lookup_last|done|done|done]. }
    rewrite own_props_app by done. simpl props. rewrite insert_last.
    erewrite bind_run_ok; [reflexivity|].
    apply assign_run; [apply lookup_last|done|done|done]. }
  rewrite own_props_app by done. simpl props. rewrite insert_last.
  destruct dev; [|done].
  unfold bind, deepFreezeRootNode, ret.
  rewrite lookup_last. simpl. by rewrite insert_last.
Qed.

(** A loop whose every turn rewrites the entries of the one object at [l]:
    the loop as a whole folds the turns.  [P] is what the turns need to know
    about the rest of the heap, [K] about the keys. *)
Lemma forEach_accum l (body : string -> M unit)
    (step : list (string * value) -> string -> list (string * value))
    (P : heap -> Prop) (K : string -> Prop) :
  (forall h o key, K key -> P h -> h !! l = Some o -> frozen o = false ->
     body key h = (inr tt, <[l := Object false (step (props o) key)]> h)) ->
  (forall h o, P h -> P (<[l := o]> h)) ->
  forall ks h o, Forall K ks -> P h -> h !! l = Some o -> frozen o = false ->
    forEach ks body h = (inr tt, <[l := Object false (fold_left step ks (props o))]> h).
Proof.
  intros Hbody HP. induction ks as [|key ks IH]; intros h o HK Hh Hl Hfr; simpl.
  - unfold ret. f_equal. symmetry. apply list_insert_id.
    rewrite Hl. destruct o; simpl in *; by subst.
  - apply Forall_cons in HK as [Hkey HK].
    erewrite bind_run_ok by (by apply Hbody).
    set (o1 := Object false (step (props o) key)).
    rewrite (IH (<[l := o1]> h) o1).
    + simpl. by rewrite list_insert_insert_eq.
    + done.
    + by apply HP.
    + apply list_lookup_insert_eq. by eapply lookup_lt_Some.
    + done.
Qed.

(** *** deleteProperty *)

Lemma keep_unless_fold droppedField src : forall rest acc,
  (forall kv, kv ∈ rest -> assoc kv.1 src = Some kv.2) ->
  NoDup (keys rest) -> (forall k, k ∈ keys rest -> k ∉ keys acc) ->
  fold_left (keep_unless droppedField src) (keys rest) acc
  = acc ++ filter (fun kv => kv.1 <> droppedField) rest.
Proof.
  induction rest as [|[k v] rest IH]; intros acc Hall Hnd Hacc; simpl.
  - by rewrite app_nil_r.
  - apply NoDup_cons in Hnd as [Hk Hnd].
    pose proof (Hall (k, v) ltac:(left)) as Hkv; simpl in Hkv.
    unfold keep_unless at 2. unfold has_key. rewrite Hkv; simpl.
    destruct (decide (k = droppedField)) as [->|Hne].
    + rewrite bool_decide_false by (intros H; by apply H). simpl.
      rewrite filter_cons_False by (simpl; intros H; by apply H).
      apply IH; [|done|].
      * intros kv Hin. apply Hall. by right.
      * intros k' Hin. apply Hacc. by right.
    + rewrite bool_decide_true by done. simpl.
      rewrite filter_cons_True by done.
      rewrite upsert_fresh by (apply Hacc; left).
      rewrite IH; [by rewrite <- app_assoc| |done|].
      * intros kv Hin. apply Hall. by right.
      * intros k' Hin. unfold keys. rewrite map_app; simpl.
        rewrite not_elem_of_app, list_elem_of_singleton. split.
        -- apply Hacc. by right.
        -- intros ->. done.
Qed.

Lemma NoDup_keys_filter {V} (P : string * V -> Prop) `{!forall x, Decision (P x)}
    (es : list (string * V)) :
  NoDup (keys es) -> NoDup (keys (filter P es)).
Proof.
  induction es as [|[k v] es IH]; intros Hnd; [done|].
  apply NoDup_cons in Hnd as [Hk Hnd].
  destruct (decide (P (k, v))).
  - rewrite filter_cons_True by done. simpl. apply NoDup_cons. split; [|auto].
    intros Hin. apply Hk. unfold keys in *.
    apply list_elem_of_fmap in Hin as [x [-> Hx]].
    apply list_elem_of_filter in Hx as [_ Hx].
    apply list_elem_of_fmap. by exists x.
  - rewrite filter_cons_False by done. auto.
Qed.

Lemma deleteProperty_run dev kb lb droppedField h ob :
  h !! lb = Some ob -> NoDup (keys (props ob)) ->
  "hasOwnProperty" ∉ keys (props ob) -> "__proto__" ∉ keys (props ob) ->
  (forall key, key ∈ keys (props ob) -> hidden (VRef kb lb) key = false) ->
  let es := filter (fun kv => kv.1 <> droppedField) (own_order (props ob)) in
  deleteProperty dev (VRef kb lb) droppedField h
  = (inr (VRef KImmutableValue (S (length h))),
     h ++ [Object false es; Object dev es]).
Proof.
  intros Hb Hnd Hhas Hproto Hhid es. unfold deleteProperty.
  assert (Hlt : lb < length h) by by eapply lookup_lt_Some.
  set (base := VRef kb lb).
  set (src := own_order (props ob)).
  assert (Hnds : NoDup (keys src)) by (by apply (proj1 (NoDup_keys_own_order _))).
  rewrite (bind_run_ok _ _ _ _ _ (eq_refl : alloc KObject h = (_, _))).
  set (h1 := h ++ [Object false []]).
  assert (Hown1 : own_props h1 base = src).
  { unfold h1. rewrite own_props_app by done. by apply own_props_lookup. }
  rewrite (bind_run_ok _ _ h1 (keys src) h1)
    by (unfold for_in, gets; by rewrite Hown1).
  erewrite bind_run_ok; cycle 1.
  { apply (forEach_accum (length h) _ (keep_unless droppedField src)
             (fun h' => own_props h' base = src)
             (fun key => key ∈ keys (props ob))).
    - intros h' o key Hkey HP Hl Hfr. unfold keep_unless.
      assert (Hne : key <> "__proto__") by (intros ->; done).
      case_bool_decide as Hd; simpl.
      + rewrite (bind_run_ok _ _ h' (has_key key src) h').
        2:{ unfold base. rewrite hasOwnProperty_run; fold base; rewrite ?HP; [done| |by apply Hhid].
            apply assoc_None. unfold src. by rewrite elem_of_keys_own_order. }
        destruct (has_key key src).
        * rewrite (bind_run_ok _ _ h' (default VUndefined (assoc key src)) h')
            by (unfold prop_get, gets; by rewrite HP).
          rewrite bool_decide_false by done.
          unfold define_own. by rewrite Hl, Hfr.
        * unfold ret. f_equal. symmetry. apply list_insert_id.
          rewrite Hl. destruct o; simpl in *; by subst.
      + rewrite (bind_run_ok _ _ h' false h') by done.
        unfold ret. f_equal. symmetry. apply list_insert_id.
        rewrite Hl. destruct o; simpl in *; by subst.
    - intros h' o HP. rewrite own_props_insert_ne; [done|simpl; lia].
    - apply Forall_forall. intros key. unfold src. by rewrite elem_of_keys_own_order.
    - done.
    - apply lookup_last.
    - done. }
  unfold h1. rewrite insert_last. simpl props.
  rewrite (keep_unless_fold droppedField src src []); cycle 1.
  { intros [k v] Hin. by apply assoc_NoDup. }
  { done. }
  { intros k _. apply not_elem_of_nil. }
  simpl app. fold es.
  rewrite new_ImmutableObject_one; [|simpl; rewrite length_app; simpl; lia|done].
  rewrite length_app; simpl length. rewrite Nat.add_1_r.
  rewrite (own_props_lookup _ _ _ _ (lookup_last h (Object false es))). simpl props.
  assert (Hes : own_order es = es).
  { unfold es, src. by rewrite own_order_filter, own_order_idem. }
  rewrite Hes.
  rewrite assigned_write_all, write_all_nil_dst
    by (apply NoDup_keys_filter; done).
  by rewrite <- app_assoc.
Qed.

Lemma filter_key_absent (droppedField : string) (es : list (string * value)) :
  droppedField ∉ keys es -> filter (fun kv => kv.1 <> droppedField) es = es.
Proof.
  induction es as [|[k v] es IH]; [done|].
  simpl. intros [Hne Hk]%not_elem_of_cons.
  rewrite filter_cons_True by (simpl; congruence). f_equal. auto.
Qed.

(** *** set *)

Lemma set_run dev lb put h ob :
  h !! lb = Some ob -> NoDup (keys (props ob)) ->
  set_accepts put = true -> allocated h put -> NoDup (keys (own_props h put)) ->
  set dev (VRef KImmutableValue lb) put h
  = (inr (VRef KImmutableValue (length h)),
     h ++ [Object dev (shallow_merge_spec (own_order (props ob)) (own_props h put))]).
Proof.
  intros Hb Hnd Hacc Hput Hndp. unfold set, assertImmutable.
  assert (Hlt : lb < length h) by by eapply lookup_lt_Some.
  assert (Hty : typeof put = TObject).
  { unfold set_accepts in Hacc. apply andb_true_iff in Hacc as [Hacc _].
    apply andb_true_iff in Hacc as [Hacc _]. by apply bool_decide_eq_true in Hacc. }
  simpl invariant at 1. rewrite (bind_run_ok _ _ h tt h) by done.
  fold (set_accepts put). rewrite Hacc. simpl invariant.
  rewrite (bind_run_ok _ _ h tt h) by done.
  rewrite new_ImmutableObject_two by done.
  rewrite (own_props_lookup _ _ _ _ Hb).
  assert (Hndo : NoDup (keys (own_order (props ob)))) by (by apply (proj1 (NoDup_keys_own_order _))).
  rewrite (assigned_write_all (own_order (props ob))), write_all_nil_dst by done.
  by rewrite assigned_write_all, write_all_spec.
Qed.

(** ** Values as trees *)

Lemma deep_merge_listed_nodes ib eb ip ep :
  deep_merge_listed (Node ib eb) (Node ip ep)
  = Node (ib || ip)
      (own_order
         (map (merge_entry ep) eb ++ filter (fun kv => has_key kv.1 eb = false) ep)).
Proof. reflexivity. Qed.

Lemma mapM_entries (f : value -> option tree) (es : list (string * value)) ts :
  mapM (fun kv => t ← f kv.2; Some (kv.1, t)) es = Some ts
  <-> Forall2 (entry_reifies f) es ts.
Proof.
  rewrite mapM_Some.
  split; intros H; (eapply Forall2_impl; [exact H|]); intros [k v] [k' t]; simpl.
  - destruct (f v) as [t'|] eqn:E; simpl; [|done].
    intros [= -> ->]. by split.
  - intros [Hk Hf]; simpl in *. subst. by rewrite Hf.
Qed.


Lemma reify_leaf av d h v :
  mergeHelpers.is_mapping v = false -> reify av d h v = Some (Leaf v).
Proof. destruct v as [| | | | |[] l], d; simpl; done. Qed.

Lemma reify_node av d h k l o es :
  mergeHelpers.is_mapping (VRef k l) = true ->
  av l = false -> h !! l = Some o -> NoDup (keys (props o)) ->
  forallb ordinary (keys (props o)) = true ->
  Forall2 (entry_reifies (reify av d h)) (own_order (props o)) es ->
  reify av (S d) h (VRef k l) = Some (Node (instanceof_ImmutableValue (VRef k l)) es).
Proof.
  intros Hm Hav Hl Hnd Hord Hes. apply mapM_entries in Hes.
  destruct k; try done; simpl; rewrite Hav, Hl, bool_decide_true, Hord by done;
    simpl; by rewrite Hes.
Qed.

Lemma reify_node_inv av d h v ib es :
  reify av d h v = Some (Node ib es) ->
  exists k l o d',
    v = VRef k l /\ mergeHelpers.is_mapping v = true /\ d = S d' /\
    av l = false /\ h !! l = Some o /\ NoDup (keys (props o)) /\
    ib = instanceof_ImmutableValue v /\
    Forall2 (entry_reifies (reify av d' h)) (own_order (props o)) es /\
    forallb ordinary (keys (props o)) = true.
Proof.
  intros H.
  destruct (mergeHelpers.is_mapping v) eqn:Hm; [|by rewrite reify_leaf in H].
  destruct v as [| | | | |k l]; try done.
  destruct d as [|d']; [by destruct k|].
  exists k, l.
  assert (Hr : reify av (S d') h (VRef k l)
               = if av l then None else
                 match h !! l with
                 | None => None
                 | Some o =>
                     if bool_decide (NoDup (keys (props o)))
                        && forallb ordinary (keys (props o)) then
                       es ← mapM (fun kv => t ← reify av d' h kv.2; Some (kv.1, t))
                                 (own_order (props o));
                       Some (Node (instanceof_ImmutableValue (VRef k l)) es)
                     else None
                 end) by by destruct k.
  rewrite Hr in H. clear Hr.
  destruct (av l); [done|]. destruct (h !! l) as [o|]; [|done].
  exists o, d'. case_bool_decide as Hnd; [|done].
  destruct (forallb ordinary (keys (props o))) eqn:Hord; [|done]. simpl in H.
  destruct (mapM _ (own_order (props o))) as [es'|] eqn:Hes; simpl in H; [|done].
  injection H as <- <-. apply mapM_entries in Hes. done.
Qed.

Lemma reify_is_leaf av d h v t :
  reify av d h v = Some t -> is_leaf t = mergeHelpers.isTerminal v.
Proof.
  unfold mergeHelpers.isTerminal. intros H.
  destruct (mergeHelpers.is_mapping v) eqn:Hm.
  - destruct t as [x|ib es]; [|done].
    destruct v as [| | | | |k l]; try done.
    destruct d; [by destruct k|]. exfalso.
    destruct k; try done; simpl in H;
      destruct (av l); try done; destruct (h !! l); try done;
      destruct (_ && _); try done; destruct (mapM _ _); done.
  - rewrite reify_leaf in H by done. by injection H as <-.
Qed.

(** A reification only looks at allocated locations outside [avoid]: it is
    unaffected by whatever happens elsewhere. *)
Lemma reify_transfer av av' d : forall h h' v t,
  (forall l o, av l = false -> h !! l = Some o -> av' l = false /\ h' !! l = Some o) ->
  reify av d h v = Some t -> reify av' d h' v = Some t.
Proof.
  induction d as [|d IH]; intros h h' v t Hhh' H.
  - destruct (mergeHelpers.is_mapping v) eqn:Hm.
    + destruct v as [| | | | |[] l]; done.
    + rewrite reify_leaf in * by done. done.
  - destruct t as [x|ib es].
    + pose proof (reify_is_leaf _ _ _ _ _ H) as Hl. simpl in Hl.
      unfold mergeHelpers.isTerminal in Hl.
      destruct (mergeHelpers.is_mapping v) eqn:Hm; [done|].
      rewrite reify_leaf in * by done. done.
    + apply reify_node_inv in H
        as (k & l & o & d' & -> & Hm & [= <-] & Hav & Hl & Hnd & -> & Hes & Hord).
      destruct (Hhh' l o Hav Hl) as [Hav' Hl'].
      apply (reify_node _ _ _ _ _ o); try done.
      eapply Forall2_impl; [exact Hes|].
      intros kv kt [Hk Hr]. split; [done|]. by eapply IH.
Qed.

Lemma reify_prefix av d h h' v t :
  h `prefix_of` h' -> reify av d h v = Some t -> reify av d h' v = Some t.
Proof.
  intros Hp. apply reify_transfer. intros l o Hav Hl. split; [done|].
  by eapply prefix_lookup_Some.
Qed.

Lemma lookup_frame (h : heap) x x' e e' l o :
  l <> length h ->
  (h ++ x :: e) !! l = Some o -> (h ++ x' :: (e ++ e')) !! l = Some o.
Proof.
  intros Hne. destruct (decide (l < length h)) as [Hlt|Hge].
  - rewrite !lookup_app_l by done. done.
  - rewrite !lookup_app_r by lia.
    destruct (l - length h) as [|n] eqn:E; [lia|]. simpl.
    apply lookup_app_l_Some.
Qed.

Lemma entries_keys f (es : list (string * value)) (ts : list (string * tree)) :
  Forall2 (entry_reifies f) es ts -> keys ts = keys es.
Proof.
  induction 1 as [|kv kt es ts [Hk _] _ IH]; simpl; [done|]. by rewrite Hk, IH.
Qed.

Lemma entries_assoc_Some f (es : list (string * value)) ts k v :
  Forall2 (entry_reifies f) es ts -> assoc k es = Some v ->
  exists t, assoc k ts = Some t /\ f v = Some t.
Proof.
  induction 1 as [|[k1 v1] [k2 t2] es ts [Hk Hf] _ IH]; simpl in *; [done|].
  subst k2. destruct (decide (k = k1)) as [->|Hne]; [|done].
  intros [= ->]. eauto.
Qed.

Lemma entries_assoc_None f (es : list (string * value)) ts k :
  Forall2 (entry_reifies f) es ts -> assoc k es = None -> assoc k ts = None.
Proof.
  intros H. rewrite !assoc_None. by rewrite (entries_keys _ _ _ H).
Qed.

Lemma entries_has_key f (es : list (string * value)) ts k :
  Forall2 (entry_reifies f) es ts -> has_key k ts = has_key k es.
Proof.
  intros H. destruct (has_key k es) eqn:E.
  - apply has_key_true in E. apply has_key_true. by rewrite (entries_keys _ _ _ H).
  - apply has_key_false in E. apply has_key_false. by rewrite (entries_keys _ _ _ H).
Qed.

Lemma entries_filter f (P : string -> Prop) `{!forall k, Decision (P k)}
    (es : list (string * value)) ts :
  Forall2 (entry_reifies f) es ts ->
  Forall2 (entry_reifies f) (filter (fun kv => P kv.1) es) (filter (fun kt => P kt.1) ts).
Proof.
  induction 1 as [|kv kt es ts [Hk Hf] _ IH]; [constructor|].
  destruct (decide (P kv.1)) as [HP|HP].
  - rewrite !filter_cons_True by (simpl; congruence). by constructor.
  - rewrite !filter_cons_False by (simpl; congruence). done.
Qed.

Lemma add_if_new_fold base src : forall rest acc,
  (forall kv, kv ∈ rest -> assoc kv.1 src = Some kv.2) ->
  NoDup (keys rest) ->
  (forall k, k ∈ keys rest -> has_key k base = false -> k ∉ keys acc) ->
  fold_left (add_if_new base src) (keys rest) acc
  = acc ++ filter (fun kv => has_key kv.1 base = false) rest.
Proof.
  induction rest as [|[k v] rest IH]; intros acc Hall Hnd Hacc; simpl.
  - by rewrite app_nil_r.
  - apply NoDup_cons in Hnd as [Hk Hnd].
    pose proof (Hall (k, v) ltac:(left)) as Hkv; simpl in Hkv.
    unfold add_if_new at 2. rewrite Hkv; simpl.
    destruct (has_key k base) eqn:Hb.
    + rewrite filter_cons_False by (simpl; congruence).
      apply IH; [|done|].
      * intros kv Hin. apply Hall. by right.
      * intros k' Hin. apply Hacc. by right.
    + rewrite filter_cons_True by done.
      rewrite upsert_fresh by (apply Hacc; [left|done]).
      rewrite IH; [by rewrite <- app_assoc| |done|].
      * intros kv Hin. apply Hall. by right.
      * intros k' Hin Hb'. unfold keys. rewrite map_app; simpl.
        rewrite not_elem_of_app, list_elem_of_singleton. split.
        -- apply Hacc; [by right|done].
        -- intros ->. done.
Qed.

(** ** One level of [_setDeep] *)

(** The method [hasOwnProperty] of a mapping none of whose own entries
    goes by that name. *)
Lemma hasOwnProperty_mapping h v es key :
  mergeHelpers.is_mapping v = true -> own_props h v = es ->
  "hasOwnProperty" ∉ keys es ->
  hasOwnProperty v key h = (inr (has_key key es), h).
Proof.
  intros Hm Hes Hno. destruct v as [| | | | |k l]; try done.
  rewrite hasOwnProperty_run; rewrite ?Hes; [done|by apply assoc_None|].
  by destruct k.
Qed.

Lemma ordinary_keys_not (es : list (string * value)) :
  forallb ordinary (keys es) = true ->
  ("hasOwnProperty" ∉ keys es) /\ ("__proto__" ∉ keys es).
Proof.
  intros Hord. split; intros Hin;
    apply (ordinary_elem _ _ Hord), ordinary_spec in Hin; tauto.
Qed.

Lemma ordinary_key_written (es : list (string * value)) key :
  forallb ordinary (keys es) = true -> key ∈ keys es -> key <> "__proto__".
Proof. intros Hord Hin. apply (ordinary_elem _ _ Hord), ordinary_spec in Hin. tauto. Qed.

Section deep_level.
Variables (dev : bool) (d : nat).

Hypothesis IH : forall av h obj put ib eb ip ep,
  (forall l, av l = true -> l < length h) ->
  reify av d h obj = Some (Node ib eb) ->
  reify av d h put = Some (Node ip ep) ->
  merged_ok dev av d h obj put ib eb ip ep.

Variables (av : loc -> bool) (h : heap) (obj put : value) (bs ps : list (string * value)).
Variable ep : list (string * tree).

Hypothesis Hav : forall l, av l = true -> l < length h.
Hypothesis Hobj : own_props h obj = bs.
Hypothesis Hobj_alloc : allocated h obj.
Hypothesis Hobj_ord : forallb ordinary (keys bs) = true.
Hypothesis Hput : own_props h put = ps.
Hypothesis Hput_alloc : allocated h put.
Hypothesis Hput_map : mergeHelpers.is_mapping put = true.
Hypothesis Hput_ord : forallb ordinary (keys ps) = true.
Hypothesis Hep : Forall2 (entry_reifies (reify av d h)) ps ep.

Local Abbreviation av1 := (off_limits av h).

Lemma av1_fresh l : av1 l = true -> forall o ext, l < length (h ++ o :: ext).
Proof.
  unfold off_limits. intros [H|H]%orb_true_iff o ext; rewrite length_app; simpl.
  - apply Hav in H. lia.
  - apply bool_decide_eq_true in H. lia.
Qed.

Lemma reify_lift v x o ext :
  reify av d h v = Some x -> reify av1 d (h ++ o :: ext) v = Some x.
Proof.
  apply reify_transfer. intros l o' Hl Hlook. split.
  - unfold off_limits. rewrite Hl; simpl. apply bool_decide_eq_false.
    apply lookup_lt_Some in Hlook. lia.
  - by apply lookup_app_l_Some.
Qed.

Lemma reify_step v x o o' e e' :
  reify av1 d (h ++ o :: e) v = Some x ->
  reify av1 d (h ++ o' :: (e ++ e')) v = Some x.
Proof.
  apply reify_transfer. intros l o'' Hl Hlook. split; [done|].
  eapply lookup_frame; [|exact Hlook].
  unfold off_limits in Hl. apply orb_false_iff in Hl as [_ Hl].
  by apply bool_decide_eq_false in Hl.
Qed.

Lemma own_props_level v o ext :
  allocated h v -> own_props (h ++ o :: ext) v = own_props h v.
Proof. apply own_props_app. Qed.

Lemma merge_turn_run key ov tov acc exti :
  key ∉ keys acc ->
  assoc key bs = Some ov ->
  reify av d h ov = Some tov ->
  exists r ext',
    merge_turn mergeHelpers.isTerminal (_setDeep' dev d) obj put
      (VRef KObject (length h)) key (h ++ Object false acc :: exti)
    = (inr tt, h ++ Object false (acc ++ [(key, r)]) :: (exti ++ ext'))
    /\ field_ok h put (key, ov) (key, r)
    /\ reify av1 d (h ++ Object false acc :: (exti ++ ext')) r
       = Some (merge_entry ep (key, tov)).2.
Proof.
  intros Hkey Hov Htov.
  set (hi := h ++ Object false acc :: exti).
  assert (Hobj_i : own_props hi obj = bs)
    by (unfold hi; by rewrite own_props_level).
  assert (Hput_i : own_props hi put = ps)
    by (unfold hi; by rewrite own_props_level).
  assert (Hne : key <> "__proto__")
    by (eapply ordinary_key_written; [exact Hobj_ord|by eapply assoc_Some_key]).
  unfold merge_turn.
  rewrite (bind_run_ok _ _ hi (has_key key ps) hi)
    by (apply hasOwnProperty_mapping; [done|done|by apply ordinary_keys_not]).
  unfold field_ok, merge_entry; simpl fst; simpl snd. rewrite Hput.
  unfold has_key. destruct (assoc key ps) as [pv|] eqn:Hpv; cbn [negb].
  - destruct (entries_assoc_Some _ _ _ _ _ Hep Hpv) as (tpv & Htp & Hrp).
    rewrite Htp.
    rewrite (bind_run_ok _ _ hi ov hi)
      by (unfold prop_get, gets; by rewrite Hobj_i, Hov).
    rewrite (bind_run_ok _ _ hi pv hi)
      by (unfold prop_get, gets; by rewrite Hput_i, Hpv).
    rewrite (reify_is_leaf _ _ _ _ _ Htov), (reify_is_leaf _ _ _ _ _ Hrp).
    destruct (mergeHelpers.isTerminal ov || mergeHelpers.isTerminal pv) eqn:Hterm.
    + exists pv, []. rewrite app_nil_r. unfold hi.
      rewrite prop_set_run, upsert_fresh by done.
      split_and!; [done|done|done|]. by apply reify_lift.
    + apply orb_false_iff in Hterm as [Hto Htp'].
      rewrite <- (reify_is_leaf _ _ _ _ _ Htov) in Hto.
      rewrite <- (reify_is_leaf _ _ _ _ _ Hrp) in Htp'.
      destruct tov as [|ibo ebo]; [done|]. destruct tpv as [|ipo epo]; [done|].
      destruct (IH av1 hi ov pv ibo ebo ipo epo)
        as (l & ext' & merged & o & Hrun & Hl & _ & _ & _ & _ & _ & Hr).
      { intros l Hl. by apply av1_fresh. }
      { by apply reify_lift. }
      { by apply reify_lift. }
      cbv zeta in Hrun, Hr.
      set (r := VRef (if ibo || ipo then KImmutableValue else KObject) l) in *.
      exists r, ext'.
      rewrite (bind_run_ok _ _ _ _ _ Hrun).
      unfold hi in *. rewrite <- app_assoc in *. simpl app in *.
      rewrite prop_set_run, upsert_fresh by done.
      split_and!; [done|done| |done].
      simpl. rewrite length_app in Hl. lia.
  - rewrite (entries_assoc_None _ _ _ _ Hep Hpv).
    rewrite (bind_run_ok _ _ hi ov hi)
      by (unfold prop_get, gets; by rewrite Hobj_i, Hov).
    exists ov, []. rewrite app_nil_r. unfold hi.
    rewrite prop_set_run, upsert_fresh by done.
    split_and!; [done|done|done|]. by apply reify_lift.
Qed.

Lemma merge_loop : forall rest trest acc tacc exti,
  (forall kv, kv ∈ rest -> assoc kv.1 bs = Some kv.2) ->
  NoDup (keys rest) ->
  (forall k, k ∈ keys rest -> k ∉ keys acc) ->
  Forall2 (entry_reifies (reify av d h)) rest trest ->
  Forall2 (entry_reifies (reify av1 d (h ++ Object false acc :: exti))) acc tacc ->
  exists new extf,
    forEach (keys rest)
      (merge_turn mergeHelpers.isTerminal (_setDeep' dev d) obj put
         (VRef KObject (length h)))
      (h ++ Object false acc :: exti)
    = (inr tt, h ++ Object false (acc ++ new) :: (exti ++ extf))
    /\ Forall2 (field_ok h put) rest new
    /\ Forall2 (entry_reifies
                  (reify av1 d (h ++ Object false (acc ++ new) :: (exti ++ extf))))
         (acc ++ new) (tacc ++ map (merge_entry ep) trest).
Proof.
  induction rest as [|[key ov] rest IHr];
    intros trest acc tacc exti Hall Hnd Hfresh Hrest Hacc.
  - apply Forall2_nil_inv_l in Hrest as ->.
    exists [], []. rewrite !app_nil_r. split_and!; [done|constructor|done].
  - apply Forall2_cons_inv_l in Hrest as ([key' tov] & trest' & [Hk Hr] & Hrest' & ->).
    simpl in Hk, Hr. subst key'.
    apply NoDup_cons in Hnd as [Hkey Hnd].
    destruct (merge_turn_run key ov tov acc exti) as (r & ext' & Hrun & Hfield & Hreif).
    { apply Hfresh. left. }
    { apply (Hall (key, ov)). left. }
    { done. }
    destruct (IHr trest' (acc ++ [(key, r)]) (tacc ++ [merge_entry ep (key, tov)])
                (exti ++ ext')) as (new & extf & Hrun' & Hfields & Htrees).
    { intros kv Hin. apply Hall. by right. }
    { done. }
    { intros k Hin. unfold keys. rewrite map_app; simpl.
      rewrite not_elem_of_app, list_elem_of_singleton. split.
      - apply Hfresh. by right.
      - intros ->. done. }
    { done. }
    { apply Forall2_app.
      - eapply Forall2_impl; [exact Hacc|].
        intros kv kt [Hk Ht]. split; [done|]. by eapply reify_step.
      - constructor; [|constructor]. split; [done|]. simpl snd.
        eapply (reify_step _ _ _ _ _ []) in Hreif. rewrite app_nil_r in Hreif.
        exact Hreif. }
    exists ((key, r) :: new), (ext' ++ extf).
    simpl forEach. rewrite (bind_run_ok _ _ _ _ _ Hrun), Hrun'.
    rewrite <- !app_assoc in *. simpl app in *.
    split_and!; [done|by constructor|done].
Qed.

End deep_level.

Lemma fields_keys h put (es new : list (string * value)) :
  Forall2 (field_ok h put) es new -> keys new = keys es.
Proof.
  induction 1 as [|kv rv es new [Hk _] _ IH]; simpl; [done|]. by rewrite Hk, IH.
Qed.

Lemma NoDup_keys_merged (base patch new : list (string * value)) :
  NoDup (keys base) -> NoDup (keys patch) -> keys new = keys base ->
  NoDup (keys (new ++ filter (fun kv => has_key kv.1 base = false) patch)).
Proof.
  intros Hb Hp Hnew. unfold keys at 1. rewrite map_app. fold (keys new). rewrite Hnew.
  apply NoDup_app. split_and!; [done| |by apply NoDup_keys_filter].
  intros k Hk Hin. apply list_elem_of_fmap in Hin as [[k' v] [-> Hin]].
  apply list_elem_of_filter in Hin as [Hin _]. simpl in *.
  by apply has_key_false in Hin.
Qed.

Lemma add_turn_loop (h : heap) obj put bs ps new extf :
  own_props h obj = bs -> allocated h obj ->
  mergeHelpers.is_mapping obj = true -> forallb ordinary (keys bs) = true ->
  own_props h put = ps -> allocated h put ->
  forallb ordinary (keys ps) = true ->
  NoDup (keys ps) -> keys new = keys bs ->
  forEach (keys ps) (add_turn obj put (VRef KObject (length h)))
    (h ++ Object false new :: extf)
  = (inr tt,
     h ++ Object false
            (new ++ filter (fun kv => has_key kv.1 bs = false) ps)
       :: extf).
Proof.
  intros Hobj Hoa Hom Hoo Hput Hpa Hpo Hnd Hnew.
  set (P := fun h' : heap => own_props h' obj = bs /\ own_props h' put = ps).
  assert (Hbody : forall h' o key, key ∈ keys ps ->
    P h' -> h' !! length h = Some o -> frozen o = false ->
    add_turn obj put (VRef KObject (length h)) key h'
    = (inr tt, <[length h := Object false (add_if_new bs ps (props o) key)]> h')).
  { intros h' o key Hkey [HPo HPp] Hl Hfr.
    unfold add_turn, add_if_new.
    rewrite (bind_run_ok _ _ h' (has_key key bs) h')
      by (apply hasOwnProperty_mapping; [done|done|by apply ordinary_keys_not]).
    destruct (has_key key bs).
    + unfold ret. f_equal. symmetry. apply list_insert_id.
      rewrite Hl. destruct o; simpl in *; by subst.
    + rewrite (bind_run_ok _ _ h' (default VUndefined (assoc key ps)) h')
        by (unfold prop_get, gets; by rewrite HPp).
      rewrite prop_set_define_own by (by eapply ordinary_key_written).
      unfold define_own. by rewrite Hl, Hfr. }
  assert (Hstep : forall h' o, P h' -> P (<[length h := o]> h')).
  { intros h' o [HPo HPp].
    assert (Hna : forall v, allocated h v -> not_at (length h) v)
      by (intros v Hv; by eapply allocated_not_at).
    unfold P. rewrite !own_props_insert_ne by auto. done. }
  rewrite (forEach_accum (length h) _ _ P _ Hbody Hstep (keys ps)
             (h ++ Object false new :: extf) (Object false new)).
  - simpl props. rewrite insert_app_r_alt, Nat.sub_diag by done. simpl.
    rewrite (add_if_new_fold bs ps ps); [done| |done|].
    + intros [k v] Hin. by apply assoc_NoDup.
    + intros k _ Hk. rewrite Hnew. by apply has_key_false.
  - by apply Forall_forall.
  - unfold P. rewrite !own_props_app by done. done.
  - by apply list_lookup_middle.
  - done.
Qed.

Lemma ordinary_merged (base patch new : list (string * value)) :
  forallb ordinary (keys base) = true -> forallb ordinary (keys patch) = true ->
  keys new = keys base ->
  forallb ordinary (keys (new ++ filter (fun kv => has_key kv.1 base = false) patch)) = true.
Proof.
  intros Hb Hp Hnew. unfold keys at 1. rewrite map_app. fold (keys new). rewrite Hnew.
  rewrite forallb_app, Hb. simpl.
  apply forallb_forall. intros k Hin. apply list_elem_of_In in Hin.
  apply list_elem_of_fmap in Hin as [kv [-> Hin]].
  apply list_elem_of_filter in Hin as [_ Hin].
  apply (ordinary_elem _ _ Hp). apply list_elem_of_fmap. by exists kv.
Qed.

(** One level of the deep merge, given the levels below. *)
Lemma setDeep_level dev d :
  (forall av h obj put ib eb ip ep,
     (forall l, av l = true -> l < length h) ->
     reify av d h obj = Some (Node ib eb) ->
     reify av d h put = Some (Node ip ep) ->
     merged_ok dev av d h obj put ib eb ip ep) ->
  forall av h obj put ib eb ip ep,
    (forall l, av l = true -> l < length h) ->
    reify av (S d) h obj = Some (Node ib eb) ->
    reify av (S d) h put = Some (Node ip ep) ->
    merged_ok dev av (S d) h obj put ib eb ip ep.
Proof.
  intros IH av h obj put ib eb ip ep Hav Hb Hp.
  apply reify_node_inv in Hb
    as (kb & lb & ob & d' & -> & Hmb & [= <-] & Havb & Hlb & Hndb & -> & Heb & Hob).
  apply reify_node_inv in Hp
    as (kp & lp & op & d' & -> & Hmp & [= <-] & Havp & Hlp & Hndp & -> & Hep & Hop).
  set (obj := VRef kb lb) in *. set (put := VRef kp lp) in *.
  set (bs := own_order (props ob)) in *. set (ps := own_order (props op)) in *.
  assert (Hobj : own_props h obj = bs) by by apply own_props_lookup.
  assert (Hput : own_props h put = ps) by by apply own_props_lookup.
  assert (Hoa : allocated h obj) by (simpl; by eapply lookup_lt_Some).
  assert (Hpa : allocated h put) by (simpl; by eapply lookup_lt_Some).
  assert (Hnbs : NoDup (keys bs)) by (by apply (proj1 (NoDup_keys_own_order _))).
  assert (Hnps : NoDup (keys ps)) by (by apply (proj1 (NoDup_keys_own_order _))).
  assert (Hobs : forallb ordinary (keys bs) = true) by by apply ordinary_own_order.
  assert (Hops : forallb ordinary (keys ps) = true) by by apply ordinary_own_order.
  destruct (merge_loop dev d IH av h obj put bs ps ep Hav Hobj Hoa Hobs Hput Hpa Hmp Hops
              Hep bs eb [] [] [])
    as (new & extf & Hrun1 & Hfields & Htrees).
  { intros [k v] Hin. by apply assoc_NoDup. }
  { done. }
  { intros k _. apply not_elem_of_nil. }
  { done. }
  { constructor. }
  simpl app in Hrun1, Htrees.
  pose proof (fields_keys _ _ _ _ Hfields) as Hnew.
  set (fields := new ++ filter (fun kv => has_key kv.1 bs = false) ps).
  set (hf := h ++ Object false fields :: extf).
  assert (Hnd : NoDup (keys fields)) by by apply NoDup_keys_merged.
  assert (Hord : forallb ordinary (keys fields) = true) by by apply ordinary_merged.
  assert (Hndo : NoDup (keys (own_order fields)))
    by (by apply (proj1 (NoDup_keys_own_order _))).
  assert (Hfresh : forall l, length h <= l -> av l = false).
  { intros l Hl. destruct (av l) eqn:E; [|done]. apply Hav in E. lia. }
  assert (Hfields_t :
    Forall2 (entry_reifies (reify (off_limits av h) d hf)) (own_order fields)
      (own_order
         (map (merge_entry ep) eb ++ filter (fun kt => has_key kt.1 eb = false) ep))).
  { apply own_order_Forall2; [by intros x y [? _]|]. apply Forall2_app.
    - eapply Forall2_impl; [exact Htrees|].
      intros kv kt [Hk Ht]. split; [done|].
      eapply (reify_step _ _ _ _ _ _ _ _ []) in Ht. rewrite app_nil_r in Ht. exact Ht.
    - rewrite (list_filter_iff (fun kt : string * tree => has_key kt.1 eb = false)
                 (fun kt => has_key kt.1 bs = false))
        by (intros kt; by rewrite (entries_has_key _ _ _ _ Heb)).
      pose proof (entries_filter (reify av d h)
                    (fun k => has_key k bs = false) _ _ Hep) as Hfil.
      eapply Forall2_impl; [exact Hfil|].
      intros kv kt [Hk Ht]. split; [done|]. by apply reify_lift. }
  assert (Hrun : forall r hr,
    (if instanceof_ImmutableValue obj then new_ImmutableObject dev [VRef KObject (length h)]
     else if instanceof_ImmutableValue put then new_ImmutableObject dev [VRef KObject (length h)]
     else ret (VRef KObject (length h))) hf = (inr r, hr) ->
    _setDeep' dev (S d) obj put h = (inr r, hr)).
  { intros r hr Hlast. unfold _setDeep'. rewrite _setDeep_unfold.
    fold (_setDeep' dev d).
    unfold mergeHelpers.checkMergeObjectArgs. rewrite Hmb, Hmp. simpl invariant.
    rewrite (bind_run_ok _ _ h tt h) by done.
    rewrite (bind_run_ok _ _ _ _ _ (eq_refl : alloc KObject h = (_, _))).
    rewrite (bind_run_ok _ _ _ (keys bs) (h ++ [Object false []]))
      by (unfold obj, Object_keys, gets; fold obj; by rewrite own_props_app, Hobj).
    rewrite (bind_run_ok _ _ _ _ _ Hrun1).
    rewrite (bind_run_ok _ _ _ (keys ps) (h ++ Object false new :: extf))
      by (unfold put, Object_keys, gets; fold put; by rewrite own_props_app, Hput).
    rewrite (bind_run_ok _ _ _ _ _
               (add_turn_loop h obj put bs ps new extf
                  Hobj Hoa Hmb Hobs Hput Hpa Hops Hnps Hnew)).
    exact Hlast. }
  assert (Hwrap :
    new_ImmutableObject dev [VRef KObject (length h)] hf
    = (inr (VRef KImmutableValue (length hf)), hf ++ [Object dev (own_order fields)])).
  { rewrite new_ImmutableObject_one;
      [|unfold hf; simpl; rewrite length_app; simpl; lia|done].
    unfold hf at 2.
    rewrite (own_props_lookup _ _ _ _
               (list_lookup_middle h extf (Object false fields) (length h) eq_refl)).
    simpl props. by rewrite assigned_write_all, write_all_nil_dst. }
  unfold merged_ok. rewrite Hobj, Hput, deep_merge_listed_nodes.
  destruct (instanceof_ImmutableValue obj || instanceof_ImmutableValue put) eqn:Himm.
  - (* sealed level *)
    exists (length hf), (Object false fields :: extf ++ [Object dev (own_order fields)]),
      new, (Object dev (own_order fields)).
    assert (Hheap : h ++ Object false fields :: extf ++ [Object dev (own_order fields)]
                    = hf ++ [Object dev (own_order fields)])
      by (unfold hf; by rewrite <- app_assoc).
    rewrite Hheap. cbv zeta. split_and!.
    + apply Hrun. rewrite <- Hwrap.
      destruct (instanceof_ImmutableValue obj); [done|].
      by destruct (instanceof_ImmutableValue put).
    + unfold hf. rewrite length_app. lia.
    + apply lookup_last.
    + by rewrite andb_true_r.
    + simpl. apply own_order_idem.
    + done.
    + done.
    + apply (reify_node av d _ KImmutableValue (length hf) (Object dev (own_order fields)));
        try done.
      * apply Hfresh. unfold hf. rewrite length_app. lia.
      * apply lookup_last.
      * by apply ordinary_own_order.
      * simpl props. rewrite own_order_idem.
        eapply Forall2_impl; [exact Hfields_t|].
        intros kv kt [Hk Ht]. split; [done|].
        eapply reify_transfer; [|exact Ht].
        intros l o Hl Hlook. split; [|by apply lookup_app_l_Some].
        unfold off_limits in Hl. by apply orb_false_iff in Hl as [? _].
  - (* plain level *)
    apply orb_false_iff in Himm as [Hio Hip].
    exists (length h), (Object false fields :: extf), new, (Object false fields).
    cbv zeta. fold hf. split_and!.
    + apply Hrun. by rewrite Hio, Hip.
    + done.
    + unfold hf. by rewrite list_lookup_middle.
    + by rewrite andb_false_r.
    + done.
    + done.
    + done.
    + apply (reify_node av d _ KObject (length h) (Object false fields)); try done.
      * by apply Hfresh.
      * unfold hf. by apply list_lookup_middle.
      * eapply Forall2_impl; [exact Hfields_t|].
        intros kv kt [Hk Ht]. split; [done|].
        eapply reify_transfer; [|exact Ht].
        intros l o Hl Hlook. split; [|done].
        unfold off_limits in Hl. by apply orb_false_iff in Hl as [? _].
Qed.

(** ** The deep merge, all levels *)

Lemma setDeep_merged dev d : forall av h obj put ib eb ip ep,
  (forall l, av l = true -> l < length h) ->
  reify av d h obj = Some (Node ib eb) ->
  reify av d h put = Some (Node ip ep) ->
  merged_ok dev av d h obj put ib eb ip ep.
Proof.
  induction d as [|d IH].
  - intros av h obj put ib eb ip ep _ Hb _.
    apply reify_node_inv in Hb as (? & ? & ? & ? & _ & _ & [=] & _).
  - by apply setDeep_level.
Qed.

Lemma fields_assoc h put (es merged : list (string * value)) k bv :
  Forall2 (field_ok h put) es merged -> assoc k es = Some bv ->
  exists rv, assoc k merged = Some rv /\ field_ok h put (k, bv) (k, rv).
Proof.
  induction 1 as [|[k1 v1] [k2 v2] es merged [Hk Hf] _ IH]; simpl in *; [done|].
  subst k2. destruct (decide (k = k1)) as [->|Hne]; [|done].
  intros [= ->]. exists v2. by split.
Qed.

Lemma fields_carried h put (es merged : list (string * value)) :
  own_props h put = [] -> Forall2 (field_ok h put) es merged -> merged = es.
Proof.
  intros Hput. induction 1 as [|[k1 v1] [k2 v2] es merged [Hk Hf] _ IH]; [done|].
  simpl in *. rewrite Hput in Hf. simpl in Hf. by subst.
Qed.

Lemma reify_instanceof av d h v ib es :
  reify av d h v = Some (Node ib es) -> ib = instanceof_ImmutableValue v.
Proof. intros H. by apply reify_node_inv in H as (? & ? & ? & ? & _ & _ & _ & _ & _ & _ & -> & _). Qed.

Lemma setDeep_immutable dev isTerminal checkMergeObjectArgs fuel immutable put h :
  instanceof_ImmutableValue immutable = true ->
  setDeep dev isTerminal checkMergeObjectArgs fuel immutable put h
  = _setDeep dev isTerminal checkMergeObjectArgs fuel immutable put h.
Proof.
  intros H. unfold setDeep, assertImmutable. rewrite H. simpl invariant.
  by rewrite (bind_run_ok _ _ h tt h).
Qed.

(** ** A rejected pair aborts the whole merge *)

Lemma before_split key ks :
  key ∈ ks -> exists post, ks = before key ks ++ key :: post.
Proof.
  induction ks as [|k ks IH]; intros Hin; [by apply elem_of_nil in Hin|].
  simpl. destruct (decide (k = key)) as [->|Hne]; [by exists ks|].
  apply elem_of_cons in Hin as [->|Hin]; [done|].
  destruct (IH Hin) as [post Hpost]. exists post. simpl. by rewrite <- Hpost.
Qed.

Lemma forEach_app {A} (xs ys : list A) (body : A -> M unit) h :
  forEach (xs ++ ys) body h
  = match forEach xs body h with
    | (inl e, h') => (inl e, h')
    | (inr _, h') => forEach ys body h'
    end.
Proof.
  revert h. induction xs as [|x xs IH]; intros h; simpl.
  - by destruct (forEach ys body h) as [[e|[]] h'].
  - unfold bind. destruct (body x h) as [[e|[]] h1]; [done|]. apply IH.
Qed.

Lemma Object_keys_heap v h : (Object_keys v h).2 = h.
Proof. by destruct v. Qed.

Lemma hasOwnProperty_heap v key h : (hasOwnProperty v key h).2 = h.
Proof.
  unfold hasOwnProperty. destruct v; try done;
    (destruct (assoc _ _) as [[| | | | |[] ?]|]; try done; by destruct (hidden _ _)).
Qed.

(** A level of [_setDeep] throws what the call it makes for the key on the
    path throws, and so on up: the error of the rejected pair is the error
    of the whole merge, thrown in the heap of the moment of the rejection. *)
Lemma arrive_rejected dev isTerminal checkMergeObjectArgs path :
  forall fuel h obj put o' p' h',
    arrive dev isTerminal checkMergeObjectArgs fuel obj put path h = Some (o', p', h') ->
    checkMergeObjectArgs o' p' = false ->
    length path < fuel ->
    _setDeep dev isTerminal checkMergeObjectArgs fuel obj put h
    = (inl MalformedMergePair, h').
Proof.
  induction path as [|key path IH]; intros fuel h obj put o' p' h' Harr Hchk Hfuel.
  - destruct fuel as [|fuel]; [simpl in Hfuel; lia|].
    simpl in Harr. injection Harr as <- <- <-.
    by rewrite _setDeep_unfold, Hchk.
  - destruct fuel as [|fuel]; [done|]. simpl in Harr, Hfuel.
    rewrite _setDeep_unfold.
    destruct (checkMergeObjectArgs obj put); [|done].
    simpl invariant. rewrite (bind_run_ok _ _ h tt h) by done.
    rewrite (bind_run_ok _ _ _ _ _ (eq_refl : alloc KObject h = (_, _))).
    pose proof (Object_keys_heap obj (h ++ [Object false []])) as Hkh.
    destruct (Object_keys obj (h ++ [Object false []])) as [[e|ks] hk] eqn:Hks; [done|].
    simpl in Hkh. subst hk.
    rewrite (bind_run_ok _ _ _ _ _ Hks).
    case_bool_decide as Hin; [|done].
    destruct (before_split key ks Hin) as [post Hpost].
    match type of Harr with
    | context [forEach ?pre ?body ?h1] =>
        destruct (forEach pre body h1) as [[e|[]] h2] eqn:Hpre; [done|];
        assert (Hloop : forEach ks body h1 = (inl MalformedMergePair, h'))
    end.
    { rewrite Hpost at 1. rewrite forEach_app, Hpre. simpl forEach.
      apply bind_run_err. unfold merge_turn.
      pose proof (hasOwnProperty_heap put key h2) as Hhh.
      destruct (hasOwnProperty put key h2) as [[e|[]] hh] eqn:Hown; try done.
      simpl in Hhh. subst hh.
      rewrite (bind_run_ok _ _ _ _ _ Hown). cbn [negb].
      rewrite (bind_run_ok _ _ h2 (default VUndefined (assoc key (own_props h2 obj))) h2)
        by done.
      rewrite (bind_run_ok _ _ h2 (default VUndefined (assoc key (own_props h2 put))) h2)
        by done.
      destruct (isTerminal _ || isTerminal _); [done|].
      apply bind_run_err. eapply IH; [exact Harr|done|lia]. }
    by apply bind_run_err.
Qed.

(** * The claims *)

Lemma prefix_untouched h h' : h `prefix_of` h' -> untouched h h'.
Proof. intros Hp l o Hl. by eapply prefix_lookup_Some. Qed.

Lemma keeps_untouched {A} (m : M A) (Q : A -> Prop) h :
  keeps h m Q -> untouched h (m h).2.
Proof. intros Hk. apply prefix_untouched. by apply (Hk h). Qed.

Ltac solve_NoDup := apply (bool_decide_unpack _); vm_compute; reflexivity.

Lemma lookup_last2 (h : heap) o1 o2 : (h ++ [o1; o2]) !! S (length h) = Some o2.
Proof.
  change (h ++ [o1; o2]) with (h ++ [o1] ++ [o2]). rewrite app_assoc.
  rewrite <- (Nat.add_1_r (length h)).
  rewrite <- (length_app h [o1]) at 1. simpl. apply lookup_last.
Qed.

Lemma keys_own_order_unindexed {V} (es : list (string * V)) :
  filter (fun k => array_index k = None) (keys (own_order es))
  = filter (fun k => array_index k = None) (keys es).
Proof.
  unfold own_order, keys. rewrite map_app, filter_app.
  rewrite (filter_none _ (map fst (indexed es))).
  2:{ intros k Hin Hk. apply list_elem_of_fmap in Hin as [kv [-> Hin]].
      pose proof (ascending_indices 0 _ (indexed_ascending es)) as Hall.
      rewrite Forall_forall in Hall. by apply (Hall kv). }
  simpl. induction es as [|kv es IH]; [done|]. simpl.
  destruct (decide (array_index kv.1 = None)) as [Hk|Hk].
  - rewrite filter_cons_True by done. simpl.
    rewrite !(filter_cons_True _ kv.1) by done. by rewrite IH.
  - rewrite filter_cons_False by done.
    rewrite (filter_cons_False _ kv.1) by done. done.
Qed.

Lemma own_order_unindexed_keys {V} (es : list (string * V)) :
  Forall (fun k => array_index k = None) (keys es) -> own_order es = es.
Proof.
  intros H. apply own_order_plain. unfold keys in H.
  by rewrite Forall_fmap in H.
Qed.

(** ** Shallow merge *)




(** Spec P1, run: keys [a, b, c] patched with [{b: x, d: y}] give keys
    [a, b, c, d]. *)
Example set_abc_bd :
  set true (VRef KImmutableValue 0) (VRef KObject 1) heap_abc
  = (inr (VRef KImmutableValue 2),
     heap_abc
     ++ [Object true [("a", VNumber 1); ("b", VString "x"); ("c", VNumber 3);
                      ("d", VString "y")]]).
Proof. reflexivity. Qed.

(** C2, as the code has it.  [set] throws the invalid-patch error, before
    anything is allocated or written, when the patch is [undefined] or an
    array; a [null] patch passes the guard ([typeof null] is ['object'])
    and [set] returns a new Immutable Value with the base's entries. *)
Theorem set_patch_validation dev lb h ob :
  h !! lb = Some ob -> NoDup (keys (props ob)) ->
  set dev (VRef KImmutableValue lb) VUndefined h = (inl InvalidPatch, h)
  /\ (forall l, set dev (VRef KImmutableValue lb) (VRef KArray l) h = (inl InvalidPatch, h))
  /\ set dev (VRef KImmutableValue lb) VNull h
     = (inr (VRef KImmutableValue (length h)), h ++ [Object dev (own_order (props ob))]).
Proof.
  intros Hb Hnd. split_and!; [done|done|].
  rewrite (set_run dev lb VNull h ob); try done.
  - simpl own_props. by rewrite shallow_merge_spec_nil_r.
  - simpl. apply NoDup_nil_2.
Qed.

Lemma set_patch_validation_witness :
  set true (VRef KImmutableValue 0) VUndefined heap_abc = (inl InvalidPatch, heap_abc)
  /\ (forall l, set true (VRef KImmutableValue 0) (VRef KArray l) heap_abc
                = (inl InvalidPatch, heap_abc))
  /\ set true (VRef KImmutableValue 0) VNull heap_abc
     = (inr (VRef KImmutableValue 2),
        heap_abc ++ [Object true [("a", VNumber 1); ("b", VNumber 2); ("c", VNumber 3)]]).
Proof.
  apply (set_patch_validation true 0 heap_abc
           (Object true [("a", VNumber 1); ("b", VNumber 2); ("c", VNumber 3)])).
  - reflexivity.
  - solve_NoDup.
Defined.

(** C2 as stated fails: [set(B, null)] throws nothing. *)
Lemma set_null_patch_is_accepted :
  ~ exists e h', set true (VRef KImmutableValue 0) VNull heap_abc = (inl e, h').
Proof. intros (e & h' & H). vm_compute in H. discriminate H. Qed.

(** C10. With a patch that has no entries, [set] returns a new Immutable
    Value, at a location other than the base's, whose entries are the
    base's entries: same keys, same order, same values. *)
Theorem set_empty_patch dev lb lp h ob op :
  h !! lb = Some ob -> h !! lp = Some op -> props op = [] ->
  NoDup (keys (props ob)) ->
  exists o',
    set dev (VRef KImmutableValue lb) (VRef KObject lp) h
    = (inr (VRef KImmutableValue (length h)), h ++ [o'])
    /\ own_props (h ++ [o']) (VRef KImmutableValue (length h))
       = own_props h (VRef KImmutableValue lb)
    /\ length h <> lb
    /\ (h ++ [o']) !! lb = Some ob.
Proof.
  intros Hb Hp Hemp Hnd. exists (Object dev (own_order (props ob))). split_and!.
  - rewrite (set_run dev lb (VRef KObject lp) h ob); try done.
    + rewrite (own_props_lookup _ _ _ _ Hp), Hemp.
      change (own_order []) with (@nil (string * value)).
      by rewrite shallow_merge_spec_nil_r.
    + simpl. by eapply lookup_lt_Some.
    + rewrite (own_props_lookup _ _ _ _ Hp), Hemp. apply NoDup_nil_2.
  - rewrite (own_props_lookup _ _ _ _ (lookup_last _ _)), (own_props_lookup _ _ _ _ Hb).
    simpl. apply own_order_idem.
  - apply lookup_lt_Some in Hb. lia.
  - by apply lookup_app_l_Some.
Qed.

Lemma set_empty_patch_witness :
  exists o',
    set true (VRef KImmutableValue 0) (VRef KObject 1) heap_abc_empty
    = (inr (VRef KImmutableValue 2), heap_abc_empty ++ [o'])
    /\ own_props (heap_abc_empty ++ [o']) (VRef KImmutableValue 2)
       = own_props heap_abc_empty (VRef KImmutableValue 0)
    /\ 2 <> 0
    /\ (heap_abc_empty ++ [o']) !! 0
       = Some (Object true [("a", VNumber 1); ("b", VNumber 2); ("c", VNumber 3)]).
Proof.
  apply (set_empty_patch true 0 1 heap_abc_empty
           (Object true [("a", VNumber 1); ("b", VNumber 2); ("c", VNumber 3)])
           (Object false [])).
  - reflexivity.
  - reflexivity.
  - reflexivity.
  - solve_NoDup.
Defined.




(** An own entry named [__proto__] does not reach the result either: the
    assignment [copy[key] = immutableObject[key]] under that key goes to
    the accessor of [Object.prototype], which ignores a number, and [copy]
    gets no entry. *)
Example deleteProperty_proto_entry_lost :
  let h := [Object true [("__proto__", VNumber 1); ("a", VNumber 2)]] in
  let '(r, h') := deleteProperty true (VRef KImmutableValue 0) "z" h in
  match r with inr v => Some (own_props h' v) | inl _ => None end
  = Some [("a", VNumber 2)].
Proof. reflexivity. Qed.

(** Spec P5, run: deleting [a] from [{a: 1, b: 2}] and setting it again
    puts it last. *)
Example delete_then_set_appends :
  let h := [Object true [("a", VNumber 1); ("b", VNumber 2)]; Object false [("a", VNumber 9)]] in
  let '(r, h1) := deleteProperty true (VRef KImmutableValue 0) "a" h in
  match r with
  | inr b' => keys (own_props (set true b' (VRef KObject 1) h1).2
                              (VRef KImmutableValue 4))
  | inl _ => []
  end = ["b"; "a"].
Proof. reflexivity. Qed.

(** ** Non-mutation *)

(** C3. Whatever the arguments, and whether the call returns or throws,
    [set], [setProperty], [deleteProperty] and [setDeep] end in a heap in
    which every object that existed before the call (the base, the patch and
    all they refer to) is as it was: the calls only allocate, and write into
    what they allocated. *)
Theorem merges_do_not_mutate dev isTerminal checkMergeObjectArgs fuel
    (base patch putField : value) (name : string) (h : heap) :
  untouched h (set dev base patch h).2
  /\ untouched h (setProperty dev base name putField h).2
  /\ untouched h (deleteProperty dev base name h).2
  /\ untouched h (setDeep dev isTerminal checkMergeObjectArgs fuel base patch h).2.
Proof.
  split_and!; eapply keeps_untouched.
  - apply keeps_set.
  - apply keeps_setProperty.
  - apply keeps_deleteProperty.
  - apply keeps_setDeep.
Qed.

(** ** Deep merge *)

Lemma tree_induction (P : tree -> Prop) :
  (forall v, P (Leaf v)) ->
  (forall i es, Forall (fun kt => P kt.2) es -> P (Node i es)) ->
  forall t, P t.
Proof.
  intros HL HN. fix IH 1. intros [v|i es]; [apply HL|]. apply HN.
  induction es as [|[k t] es IHes]; constructor; [apply IH|apply IHes].
Qed.

Lemma unindexed_entry i es kt :
  unindexed (Node i es) = true -> kt ∈ es ->
  array_index kt.1 = None /\ unindexed kt.2 = true.
Proof.
  simpl. rewrite forallb_forall. intros H Hin.
  apply list_elem_of_In, H, andb_true_iff in Hin as [H1 H2].
  by apply bool_decide_eq_true in H1.
Qed.

(** Without array indices among the keys, the merge lists the entries as
    the specification words it. *)
Lemma deep_merge_listed_unindexed b : forall p,
  unindexed b = true -> unindexed p = true ->
  deep_merge_listed b p = deep_merge_spec b p.
Proof.
  induction b as [v|ib eb IH] using tree_induction; intros p Hb Hp; [done|].
  destruct p as [v|ip ep]; [done|]. simpl. f_equal.
  assert (Hmap :
    map (fun kv => (kv.1,
                    match assoc kv.1 ep with
                    | None => kv.2
                    | Some pv => if is_leaf kv.2 || is_leaf pv then pv
                                 else deep_merge_listed kv.2 pv
                    end)) eb
    = map (fun kv => (kv.1,
                      match assoc kv.1 ep with
                      | None => kv.2
                      | Some pv => if is_leaf kv.2 || is_leaf pv then pv
                                   else deep_merge_spec kv.2 pv
                      end)) eb).
  { apply map_ext_in. intros kv Hin. apply list_elem_of_In in Hin. f_equal.
    destruct (assoc kv.1 ep) as [pv|] eqn:Hpv; [|done].
    destruct (is_leaf kv.2 || is_leaf pv); [done|].
    rewrite Forall_forall in IH. apply (IH kv Hin).
    - by apply (unindexed_entry ib eb kv).
    - apply assoc_Some_elem in Hpv. by apply (unindexed_entry ip ep (kv.1, pv)). }
  rewrite Hmap. apply own_order_plain. apply Forall_app. split.
  - apply Forall_forall. intros kt Hin. apply list_elem_of_fmap in Hin as [kv [-> Hin]].
    simpl. by apply (unindexed_entry ib eb kv).
  - apply Forall_forall. intros kt [_ Hin]%list_elem_of_filter.
    by apply (unindexed_entry ip ep kt).
Qed.

(** What a key reads in the result of a level of the deep merge. *)
Lemma merged_lookup (o : object) (fields : list (string * value)) key :
  NoDup (keys (props o)) -> own_order (props o) = own_order fields ->
  assoc key (own_order (props o)) = assoc key fields.
Proof.
  intros Hnd Heq. rewrite Heq. apply assoc_own_order.
  assert (Hp : keys fields ≡ₚ keys (props o)).
  { rewrite <- (keys_own_order_Permutation fields), <- Heq.
    apply keys_own_order_Permutation. }
  by rewrite Hp.
Qed.




(** Under the key [__proto__] the result holds no value at all: base and
    patch both have an own entry of that name, the patch's value is
    terminal, and the assignment [totalNewFields[key] = put[key]] goes to
    the accessor of [Object.prototype], which ignores a number. *)
Example setDeep_proto_entry_not_replaced :
  let h := [Object true [("__proto__", VNumber 1); ("a", VNumber 2)];
            Object false [("__proto__", VNumber 5)]] in
  let '(r, h') := setDeep' true 1 (VRef KImmutableValue 0) (VRef KObject 1) h in
  match r with inr v => Some (own_props h' v) | inl _ => None end
  = Some [("a", VNumber 2)].
Proof. reflexivity. Qed.

(** Spec P3, run: [setDeep({k: {m: 1}}, {k: 5})] is [{k: 5}]. *)
Example setDeep_p3 :
  let '(r, h') := setDeep' true 2 (VRef KImmutableValue 0) (VRef KObject 2) heap_p3 in
  match r with inr v => Some (own_props h' v) | inl _ => None end
  = Some [("k", VNumber 5)].
Proof. reflexivity. Qed.




(** Spec P4, run: [setDeep({k: {m: 1, n: 2}}, {k: {n: 9, p: 3}})] is
    [{k: {m: 1, n: 9, p: 3}}], the inner keys in the order [m, n, p]. *)
Example setDeep_p4 :
  let '(r, h') := setDeep' true 2 (VRef KImmutableValue 0) (VRef KObject 2) heap_p4 in
  match r with inr v => reify nowhere 2 h' v | inl _ => None end
  = Some (Node true
            [("k", Node false [("m", Leaf (VNumber 1)); ("n", Leaf (VNumber 9));
                               ("p", Leaf (VNumber 3))])]).
Proof. reflexivity. Qed.

(** C6, as the code has it.  On mappings whose keys are [ordinary], a call
    of [_setDeep], at whatever level of the recursion, returns the merged
    entries of that level in a new instance of ImmutableValue if the base
    or the patch of the call is an instance of ImmutableValue, and in a new
    plain, unfrozen object otherwise.  The instance is sealed by the
    constructor under [__DEV__] only: without it, it is not frozen. *)
Theorem setDeep_wraps_iff_immutable dev d h obj put ib eb ip ep :
  reify nowhere d h obj = Some (Node ib eb) ->
  reify nowhere d h put = Some (Node ip ep) ->
  let immutable := instanceof_ImmutableValue obj || instanceof_ImmutableValue put in
  exists l h' o,
    _setDeep' dev d obj put h
    = (inr (VRef (if immutable then KImmutableValue else KObject) l), h')
    /\ length h <= l
    /\ h' !! l = Some o
    /\ frozen o = dev && immutable
    /\ reify nowhere d h' (VRef (if immutable then KImmutableValue else KObject) l)
       = Some (deep_merge_listed (Node ib eb) (Node ip ep)).
Proof.
  intros Hb Hp immutable.
  destruct (setDeep_merged dev d nowhere h obj put ib eb ip ep)
    as (l & ext & merged & o & Hrun & Hl & Hlook & Hfr & _ & _ & _ & Hr); [done..|].
  cbv zeta in Hrun, Hr.
  pose proof (reify_instanceof _ _ _ _ _ _ Hb) as Hib.
  pose proof (reify_instanceof _ _ _ _ _ _ Hp) as Hip.
  subst ib ip. by eexists _, _, _.
Qed.

Lemma setDeep_wraps_iff_immutable_witness :
  exists l h' o,
    _setDeep' true 1 (VRef KObject 1) (VRef KObject 3) heap_p4
    = (inr (VRef KObject l), h')
    /\ 4 <= l
    /\ h' !! l = Some o
    /\ frozen o = false
    /\ reify nowhere 1 h' (VRef KObject l)
       = Some (deep_merge_listed
                 (Node false [("m", Leaf (VNumber 1)); ("n", Leaf (VNumber 2))])
                 (Node false [("n", Leaf (VNumber 9)); ("p", Leaf (VNumber 3))])).
Proof.
  apply (setDeep_wraps_iff_immutable true 1 heap_p4 (VRef KObject 1) (VRef KObject 3)
           false [("m", Leaf (VNumber 1)); ("n", Leaf (VNumber 2))]
           false [("n", Leaf (VNumber 9)); ("p", Leaf (VNumber 3))]).
  - reflexivity.
  - reflexivity.
Defined.

(** C6 as stated fails: without [__DEV__] the level of an Immutable Value
    base is wrapped as an instance of ImmutableValue that is not sealed, and
    a write to it goes through. *)
Lemma setDeep_wrapped_unsealed_without_dev :
  exists l h' o h'',
    setDeep' false 2 (VRef KImmutableValue 0) (VRef KObject 2) heap_p4
    = (inr (VRef KImmutableValue l), h')
    /\ h' !! l = Some o
    /\ frozen o = false
    /\ prop_set (VRef KImmutableValue l) "k" (VNumber 0) h' = (inr tt, h'')
    /\ own_props h'' (VRef KImmutableValue l) = [("k", VNumber 0)].
Proof. eexists _, _, _, _. split_and!; reflexivity. Qed.

(** A sealed level over a plain one: the outer result of spec P4 is an
    Immutable Value, its inner mapping a plain object. *)
Example setDeep_p4_levels :
  let '(r, h') := setDeep' true 2 (VRef KImmutableValue 0) (VRef KObject 2) heap_p4 in
  match r with
  | inr v => Some (v, assoc "k" (own_props h' v))
  | inl _ => None
  end
  = Some (VRef KImmutableValue 6, Some (VRef KObject 5)).
Proof. reflexivity. Qed.




(** A key of the base named [__proto__] that the patch lacks is not carried
    forward: the assignment [totalNewFields[key] = obj[key]] under that key
    writes no entry. *)
Example setDeep_proto_entry_not_shared :
  let h := [Object true [("__proto__", VNumber 1); ("a", VNumber 2)];
            Object false []] in
  let '(r, h') := setDeep' true 1 (VRef KImmutableValue 0) (VRef KObject 1) h in
  match r with inr v => Some (own_props h' v) | inl _ => None end
  = Some [("a", VNumber 2)].
Proof. reflexivity. Qed.

(** Spec P8, run: after [setDeep(B, {})] the key [k] still refers to the
    object at location 1. *)
Example setDeep_p8 :
  let '(r, h') := setDeep' true 2 (VRef KImmutableValue 0) (VRef KObject 2) heap_p8 in
  match r with inr v => Some (own_props h' v) | inl _ => None end
  = Some [("k", VRef KObject 1)].
Proof. reflexivity. Qed.

(** ** Rejected pairs *)

(** C8. Take any classifier and any validation for the two helpers of
    [mergeHelpers], and an Immutable Value base.  If the recursion of the
    merge arrives at a pair, along some path of keys, that fails the
    validation, then the call on that pair throws the malformed-pair error
    at once, before it allocates or writes anything, and that very error is
    what [setDeep] as a whole throws, from the heap of that moment: no level
    above catches it or goes on, no value is returned, and every object that
    existed before the call is as it was. *)
Theorem setDeep_rejection_aborts dev isTerminal checkMergeObjectArgs
    path fuel h immutable put o' p' h' :
  instanceof_ImmutableValue immutable = true ->
  arrive dev isTerminal checkMergeObjectArgs fuel immutable put path h = Some (o', p', h') ->
  checkMergeObjectArgs o' p' = false ->
  length path < fuel ->
  (forall fuel' h1,
     _setDeep dev isTerminal checkMergeObjectArgs (S fuel') o' p' h1
     = (inl MalformedMergePair, h1))
  /\ setDeep dev isTerminal checkMergeObjectArgs fuel immutable put h
     = (inl MalformedMergePair, h')
  /\ untouched h h'.
Proof.
  intros Himm Harr Hchk Hfuel. split.
  - intros fuel' h1. by rewrite _setDeep_unfold, Hchk.
  - pose proof (keeps_untouched _ _ h
                  (keeps_setDeep h dev isTerminal checkMergeObjectArgs fuel immutable put))
      as Hun.
    rewrite setDeep_immutable in * by done.
    rewrite (arrive_rejected dev isTerminal checkMergeObjectArgs path
               fuel h immutable put o' p' h' Harr Hchk Hfuel) in *.
    done.
Qed.

Lemma setDeep_rejection_aborts_witness :
  (forall fuel' h1,
     _setDeep true isTerminal_typeof mergeHelpers.checkMergeObjectArgs (S fuel')
       (VRef KArray 1) (VRef KArray 3) h1
     = (inl MalformedMergePair, h1))
  /\ setDeep true isTerminal_typeof mergeHelpers.checkMergeObjectArgs 5
       (VRef KImmutableValue 0) (VRef KObject 2) heap_arrays
     = (inl MalformedMergePair, heap_arrays ++ [Object false []])
  /\ untouched heap_arrays (heap_arrays ++ [Object false []]).
Proof.
  apply (setDeep_rejection_aborts true isTerminal_typeof mergeHelpers.checkMergeObjectArgs
           ["k"] 5 heap_arrays (VRef KImmutableValue 0) (VRef KObject 2)).
  - reflexivity.
  - reflexivity.
  - reflexivity.
  - simpl. lia.
Defined.

(** With the helpers as the specification describes them, a patch that is
    not a mapping is rejected at the top level. *)
Example setDeep_null_patch_rejected :
  setDeep' true 5 (VRef KImmutableValue 0) VNull heap_p4
  = (inl MalformedMergePair, heap_p4).
Proof. reflexivity. Qed.

(** * Further properties of the module *)

(** ** Entries *)

Lemma NoDup_keys_shallow_merge_spec {V} (base patch : list (string * V)) :
  NoDup (keys base) -> NoDup (keys patch) ->
  NoDup (keys (shallow_merge_spec base patch)).
Proof.
  intros Hb Hp. rewrite keys_shallow_merge_spec.
  apply NoDup_app. split_and!; [done| |by apply NoDup_filter].
  intros k Hk Hin. by apply list_elem_of_filter in Hin as [Hin _].
Qed.

Lemma shallow_merge_spec_new_key {V} (name : string) (v : V) (es : list (string * V)) :
  name ∉ keys es -> shallow_merge_spec es [(name, v)] = es ++ [(name, v)].
Proof.
  intros Hn. unfold shallow_merge_spec. f_equal.
  - rewrite <- (map_id es) at 2. apply map_ext_in. intros [k x] Hin; simpl.
    destruct (decide (k = name)) as [->|Hne]; [|done].
    exfalso. apply Hn. apply list_elem_of_In in Hin.
    apply list_elem_of_fmap. by exists (name, x).
  - rewrite filter_cons_True by (simpl; by apply has_key_false). done.
Qed.

Lemma filter_shallow_merge_spec_one {V} (name : string) (v : V) (es : list (string * V)) :
  filter (fun kv => kv.1 <> name) (shallow_merge_spec es [(name, v)])
  = filter (fun kv => kv.1 <> name) es.
Proof.
  unfold shallow_merge_spec. rewrite filter_app.
  rewrite (filter_none _ (filter _ [(name, v)])).
  2:{ intros [k x] [_ Hin]%list_elem_of_filter.
      apply list_elem_of_singleton in Hin as [= -> ->]. simpl. by intros H. }
  rewrite app_nil_r.
  induction es as [|[k x] es IH]; [done|]. simpl in *.
  destruct (decide (k = name)) as [->|Hne]; simpl.
  - rewrite !filter_cons_False by (simpl; by intros H). done.
  - rewrite !filter_cons_True by done. by rewrite IH.
Qed.

Lemma has_key_filter_out {V} (name : string) (es : list (string * V)) :
  name ∉ keys (filter (fun kv => kv.1 <> name) es).
Proof.
  intros Hin. apply list_elem_of_fmap in Hin as [[k x] [-> Hin]].
  by apply list_elem_of_filter in Hin as [Hne _].
Qed.

Lemma filter_filter_same {A} (P : A -> Prop) `{!forall x, Decision (P x)} (l : list A) :
  filter P (filter P l) = filter P l.
Proof.
  induction l as [|x l IH]; [done|].
  destruct (decide (P x)).
  - rewrite !filter_cons_True by done. by rewrite IH.
  - rewrite !filter_cons_False by done. done.
Qed.

Lemma assoc_filter_other {V} (name k : string) (es : list (string * V)) :
  k <> name -> assoc k (filter (fun kv => kv.1 <> name) es) = assoc k es.
Proof.
  intros Hne. induction es as [|[k' x] es IH]; [done|]. simpl.
  destruct (decide (k' = name)) as [->|Hk'].
  - rewrite filter_cons_False by (simpl; by intros H).
    by rewrite decide_False.
  - rewrite filter_cons_True by done. simpl. by rewrite IH.
Qed.

Lemma mapEach_prop_get v (h : heap) (rest : list (string * value)) :
  (forall kv, kv ∈ rest -> assoc kv.1 (own_props h v) = Some kv.2) ->
  mapEach (keys rest) (fun key => prop_get v key) h = (inr (map snd rest), h).
Proof.
  induction rest as [|[k x] rest IH]; intros Hall; [done|]. simpl.
  pose proof (Hall (k, x) ltac:(left)) as Hk; simpl in Hk.
  rewrite (bind_run_ok _ _ h x h) by (unfold prop_get, gets; by rewrite Hk).
  rewrite (bind_run_ok _ _ h (map snd rest) h); [done|].
  apply IH. intros kv Hin. apply Hall. by right.
Qed.

Lemma fields_flat h put (es merged : list (string * value)) :
  (forall kv pv,
     kv ∈ es -> assoc kv.1 (own_props h put) = Some pv ->
     mergeHelpers.isTerminal kv.2 || mergeHelpers.isTerminal pv = true) ->
  Forall2 (field_ok h put) es merged ->
  merged = map (fun kv => (kv.1, default kv.2 (assoc kv.1 (own_props h put)))) es.
Proof.
  intros Hflat Hf.
  induction Hf as [|[k v] [k' v'] es merged [Hk Hok] _ IH]; [done|].
  simpl in *. subst k'. f_equal.
  - f_equal.
    destruct (assoc k (own_props h put)) as [pv|] eqn:Hpv; simpl; [|done].
    pose proof (Hflat (k, v) pv ltac:(left) Hpv) as Ht. simpl in Ht.
    by rewrite Ht in Hok.
  - apply IH. intros kv pv Hin. apply Hflat. by right.
Qed.

Lemma own_order_singleton {V} (kv : string * V) : own_order [kv] = [kv].
Proof.
  unfold own_order. simpl. destruct (array_index kv.1) eqn:E.
  - rewrite filter_cons_False by (rewrite E; by intros H). done.
  - by rewrite filter_cons_True.
Qed.

Lemma own_order_app_plain {V} (es1 es2 : list (string * V)) :
  Forall (fun kv => array_index kv.1 = None) es2 ->
  own_order (es1 ++ es2) = own_order es1 ++ es2.
Proof.
  intros H. unfold own_order. rewrite indexed_app_none by done.
  rewrite filter_app, <- app_assoc. do 2 f_equal.
  induction H as [|kv es Hkv _ IH]; [done|].
  rewrite filter_cons_True by done. by rewrite IH.
Qed.

(** A patch that holds nothing new changes nothing. *)
Lemma shallow_merge_spec_absorb {V} (es patch : list (string * V)) :
  NoDup (keys es) ->
  (forall k v, assoc k patch = Some v -> assoc k es = Some v) ->
  shallow_merge_spec es patch = es.
Proof.
  intros Hnd Hsub. unfold shallow_merge_spec.
  rewrite (filter_none _ patch).
  2:{ intros [k v] Hin. simpl. intros Hno. apply has_key_false in Hno. apply Hno.
      destruct (assoc k patch) as [v'|] eqn:E.
      - eapply assoc_Some_key. by apply Hsub.
      - apply assoc_None in E. exfalso. apply E.
        apply list_elem_of_fmap. by exists (k, v). }
  rewrite app_nil_r. rewrite <- (map_id es) at 2. apply map_ext_in.
  intros [k v] Hin. apply list_elem_of_In in Hin. simpl.
  destruct (assoc k patch) as [v'|] eqn:E; [|done]. simpl.
  apply Hsub in E. rewrite (assoc_NoDup k v es Hnd Hin) in E. by injection E as ->.
Qed.

(** ** Running the sugar *)

Lemma setProperty_run dev lb fieldName putField h ob :
  h !! lb = Some ob -> NoDup (keys (props ob)) -> fieldName <> "__proto__" ->
  setProperty dev (VRef KImmutableValue lb) fieldName putField h
  = (inr (VRef KImmutableValue (S (length h))),
     h ++ [Object false [(fieldName, putField)];
           Object dev (shallow_merge_spec (own_order (props ob)) [(fieldName, putField)])]).
Proof.
  intros Hb Hnd Hne. unfold setProperty.
  rewrite (bind_run_ok _ _ _ _ _ (eq_refl : alloc KObject h = (_, _))).
  erewrite bind_run_ok; cycle 1.
  { rewrite prop_set_define_own by done.
    unfold define_own. rewrite lookup_last. simpl. by rewrite insert_last. }
  rewrite (set_run dev lb _ _ ob).
  - rewrite (own_props_lookup _ _ _ _ (lookup_last h _)). simpl props.
    rewrite own_order_singleton.
    rewrite length_app. simpl length. rewrite Nat.add_1_r.
    by rewrite <- app_assoc.
  - by apply lookup_app_l_Some.
  - done.
  - done.
  - simpl. rewrite length_app. simpl. lia.
  - rewrite (own_props_lookup _ _ _ _ (lookup_last h _)). simpl props.
    rewrite own_order_singleton. apply NoDup_singleton.
Qed.

(** ** The guard on the base *)

(** X1. On a base that is not an instance of ImmutableValue, [set] and
    [setDeep] throw the not-immutable error before they look at the patch
    or touch the heap; [setProperty] throws it too, after it has built its
    patch, of the one entry, or of none when the name is [__proto__] and the
    value a primitive. *)
Theorem non_immutable_base_rejected dev isTerminal checkMergeObjectArgs fuel
    (base put putField : value) (name : string) (h : heap) :
  instanceof_ImmutableValue base = false ->
  set dev base put h = (inl NotImmutable, h)
  /\ setDeep dev isTerminal checkMergeObjectArgs fuel base put h = (inl NotImmutable, h)
  /\ (name <> "__proto__" ->
      setProperty dev base name putField h
      = (inl NotImmutable, h ++ [Object false [(name, putField)]]))
  /\ (name = "__proto__" -> putField <> VNull -> (forall k l, putField <> VRef k l) ->
      setProperty dev base name putField h = (inl NotImmutable, h ++ [Object false []])).
Proof.
  intros Hb. split_and!.
  - unfold set, assertImmutable. by rewrite Hb.
  - unfold setDeep, assertImmutable. by rewrite Hb.
  - intros Hne. unfold setProperty.
    rewrite (bind_run_ok _ _ _ _ _ (eq_refl : alloc KObject h = (_, _))).
    erewrite bind_run_ok; cycle 1.
    { rewrite prop_set_define_own by done.
      unfold define_own. rewrite lookup_last. simpl. by rewrite insert_last. }
    unfold set, assertImmutable. by rewrite Hb.
  - intros -> Hnull Href. unfold setProperty.
    rewrite (bind_run_ok _ _ _ _ _ (eq_refl : alloc KObject h = (_, _))).
    rewrite (bind_run_ok _ _ _ tt (h ++ [Object false []])).
    + unfold set, assertImmutable. by rewrite Hb.
    + unfold prop_set. simpl. destruct putField; try done. by destruct (Href k l).
Qed.

Lemma non_immutable_base_rejected_witness :
  set true (VRef KObject 0) VUndefined heap_plain = (inl NotImmutable, heap_plain)
  /\ setDeep true mergeHelpers.isTerminal mergeHelpers.checkMergeObjectArgs 3
       (VRef KObject 0) VUndefined heap_plain = (inl NotImmutable, heap_plain)
  /\ ("c" <> "__proto__" ->
      setProperty true (VRef KObject 0) "c" (VNumber 3) heap_plain
      = (inl NotImmutable, heap_plain ++ [Object false [("c", VNumber 3)]]))
  /\ ("c" = "__proto__" -> VNumber 3 <> VNull -> (forall k l, VNumber 3 <> VRef k l) ->
      setProperty true (VRef KObject 0) "c" (VNumber 3) heap_plain
      = (inl NotImmutable, heap_plain ++ [Object false []])).
Proof.
  apply (non_immutable_base_rejected true mergeHelpers.isTerminal
           mergeHelpers.checkMergeObjectArgs 3 (VRef KObject 0) VUndefined (VNumber 3)
           "c" heap_plain).
  reflexivity.
Defined.

Lemma own_props_result (h : heap) o1 o2 :
  own_props (h ++ [o1; o2]) (VRef KImmutableValue (S (length h))) = own_order (props o2).
Proof. by rewrite (own_props_lookup _ _ _ _ (lookup_last2 h _ _)). Qed.

Lemma deleteProperty_nothing dev (base : value) droppedField h :
  own_props (h ++ [Object false []]) base = [] ->
  deleteProperty dev base droppedField h
  = (inr (VRef KImmutableValue (S (length h))), h ++ [Object false []; Object dev []]).
Proof.
  intros Hemp. unfold deleteProperty.
  rewrite (bind_run_ok _ _ _ _ _ (eq_refl : alloc KObject h = (_, _))).
  rewrite (bind_run_ok _ _ _ [] (h ++ [Object false []]))
    by (unfold for_in, gets; by rewrite Hemp).
  simpl forEach. rewrite (bind_run_ok _ _ _ tt (h ++ [Object false []])) by done.
  rewrite new_ImmutableObject_one; [|simpl; rewrite length_app; simpl; lia|done].
  rewrite (own_props_lookup _ _ _ _ (lookup_last h _)). simpl.
  rewrite length_app. simpl. rewrite Nat.add_1_r. by rewrite <- app_assoc.
Qed.



(** ** setProperty *)

Lemma keys_own_order_same {A B} (es : list (string * A)) (es' : list (string * B)) :
  keys es' = keys es -> keys (own_order es') = keys (own_order es).
Proof.
  intros Hk.
  assert (H : Forall2 (fun x y => y.1 = x.1) es es').
  { revert es' Hk. induction es as [|x es IH]; intros [|y es'] Hk; simpl in *;
      try done; try constructor.
    + by injection Hk.
    + injection Hk as _ Hk. by apply IH. }
  apply (own_order_Forall2 _ _ _ (fun x y Hxy => Hxy)) in H.
  induction H as [|x y l l' Hxy _ IH]; simpl; [done|]. by rewrite Hxy, IH.
Qed.

(** X4. After [setProperty(base, name, value)], for a name other than
    [__proto__], the result reads [value] at [name] and, at every other key,
    what the base reads; a key the base has keeps its position, and a new
    key that is no array index goes last. *)
Theorem setProperty_lookup dev lb fieldName putField h ob :
  h !! lb = Some ob -> NoDup (keys (props ob)) -> fieldName <> "__proto__" ->
  exists h',
    setProperty dev (VRef KImmutableValue lb) fieldName putField h
    = (inr (VRef KImmutableValue (S (length h))), h')
    /\ assoc fieldName (own_props h' (VRef KImmutableValue (S (length h)))) = Some putField
    /\ (forall k, k <> fieldName ->
          assoc k (own_props h' (VRef KImmutableValue (S (length h))))
          = assoc k (own_props h (VRef KImmutableValue lb)))
    /\ (fieldName ∈ keys (props ob) ->
        keys (own_props h' (VRef KImmutableValue (S (length h))))
        = keys (own_props h (VRef KImmutableValue lb)))
    /\ (fieldName ∉ keys (props ob) -> array_index fieldName = None ->
        own_props h' (VRef KImmutableValue (S (length h)))
        = own_props h (VRef KImmutableValue lb) ++ [(fieldName, putField)]).
Proof.
  intros Hb Hnd Hne. eexists. split; [by apply setProperty_run|].
  rewrite own_props_result, (own_props_lookup _ _ _ _ Hb). simpl props.
  set (bs := own_order (props ob)).
  assert (Hnbs : NoDup (keys bs)) by (by apply (proj1 (NoDup_keys_own_order _))).
  assert (Hnm : NoDup (keys (shallow_merge_spec bs [(fieldName, putField)])))
    by (apply NoDup_keys_shallow_merge_spec; [done|apply NoDup_singleton]).
  split_and!.
  - rewrite assoc_own_order by done. rewrite assoc_shallow_merge_spec. simpl.
    by rewrite decide_True.
  - intros k Hk. rewrite assoc_own_order by done.
    rewrite assoc_shallow_merge_spec. simpl.
    rewrite decide_False by done. unfold bs. by rewrite assoc_own_order.
  - intros Hin. replace (keys bs) with (keys (own_order bs))
      by (unfold bs; by rewrite own_order_idem).
    apply keys_own_order_same. rewrite keys_shallow_merge_spec. simpl.
    rewrite filter_cons_False; [by rewrite app_nil_r|].
    intros H. apply H. unfold bs. by rewrite elem_of_keys_own_order.
  - intros Hnin Hix. rewrite shallow_merge_spec_new_key
      by (unfold bs; by rewrite elem_of_keys_own_order).
    rewrite own_order_app_plain by (by constructor).
    unfold bs. by rewrite own_order_idem.
Qed.

Lemma setProperty_lookup_witness :
  exists h',
    setProperty true (VRef KImmutableValue 0) "b" (VNumber 9) heap_abc
    = (inr (VRef KImmutableValue 3), h')
    /\ assoc "b" (own_props h' (VRef KImmutableValue 3)) = Some (VNumber 9)
    /\ (forall k, k <> "b" ->
          assoc k (own_props h' (VRef KImmutableValue 3))
          = assoc k (own_props heap_abc (VRef KImmutableValue 0)))
    /\ ("b" ∈ keys [("a", VNumber 1); ("b", VNumber 2); ("c", VNumber 3)] ->
        keys (own_props h' (VRef KImmutableValue 3))
        = keys (own_props heap_abc (VRef KImmutableValue 0)))
    /\ ("b" ∉ keys [("a", VNumber 1); ("b", VNumber 2); ("c", VNumber 3)] ->
        array_index "b" = None ->
        own_props h' (VRef KImmutableValue 3)
        = own_props heap_abc (VRef KImmutableValue 0) ++ [("b", VNumber 9)]).
Proof.
  apply (setProperty_lookup true 0 "b" (VNumber 9) heap_abc
           (Object true [("a", VNumber 1); ("b", VNumber 2); ("c", VNumber 3)])).
  - reflexivity.
  - solve_NoDup.
  - discriminate.
Defined.

(** ** Operations in sequence *)

Lemma own_order_filter_fixed {V} (P : string * V -> Prop) `{!forall x, Decision (P x)}
    (es : list (string * V)) :
  own_order (filter P (own_order es)) = filter P (own_order es).
Proof. by rewrite own_order_filter, own_order_idem. Qed.

Lemma elem_keys_filter {V} (P : string * V -> Prop) `{!forall x, Decision (P x)}
    (es : list (string * V)) k :
  k ∈ keys (filter P es) -> k ∈ keys es.
Proof.
  intros Hin. apply list_elem_of_fmap in Hin as [kv [-> Hin]].
  apply list_elem_of_filter in Hin as [_ Hin].
  apply list_elem_of_fmap. by exists kv.
Qed.

Lemma elem_keys_set_one {V} (es : list (string * V)) name v k :
  k ∈ keys (shallow_merge_spec es [(name, v)]) -> k ∈ keys es \/ k = name.
Proof.
  rewrite keys_shallow_merge_spec, elem_of_app. intros [Hin|Hin]; [by left|].
  apply list_elem_of_filter in Hin as [_ Hin]. right.
  by apply list_elem_of_singleton in Hin.
Qed.

(** X5. On a base with no own entry named [hasOwnProperty] or [__proto__],
    and for a name that is neither: setting a property and then deleting it
    gives the base's entries without that key; when the base did not have
    the key, the base's entries exactly. *)
Theorem deleteProperty_after_setProperty dev lb name putField h ob :
  h !! lb = Some ob -> NoDup (keys (props ob)) ->
  "hasOwnProperty" ∉ keys (props ob) -> "__proto__" ∉ keys (props ob) ->
  name <> "hasOwnProperty" -> name <> "__proto__" ->
  exists r1 h1 r2 h2,
    setProperty dev (VRef KImmutableValue lb) name putField h = (inr r1, h1)
    /\ deleteProperty dev r1 name h1 = (inr r2, h2)
    /\ own_props h2 r2
       = filter (fun kv => kv.1 <> name) (own_props h (VRef KImmutableValue lb))
    /\ (name ∉ keys (props ob) -> own_props h2 r2 = own_props h (VRef KImmutableValue lb)).
Proof.
  intros Hb Hnd Hhas Hproto Hn1 Hn2.
  set (bs := own_order (props ob)).
  assert (Hnbs : NoDup (keys bs)) by (by apply (proj1 (NoDup_keys_own_order _))).
  assert (Hin : forall k, k ∈ keys (shallow_merge_spec bs [(name, putField)]) ->
                          k ∈ keys (props ob) \/ k = name).
  { intros k [Hk|Hk]%elem_keys_set_one; [left|by right].
    unfold bs in Hk. by rewrite elem_of_keys_own_order in Hk. }
  eexists _, _, _, _. split; [by apply setProperty_run|].
  split.
  { eapply (deleteProperty_run dev KImmutableValue (S (length h)) name _
              (Object dev (shallow_merge_spec bs [(name, putField)]))).
    - apply lookup_last2.
    - simpl. apply NoDup_keys_shallow_merge_spec; [done|apply NoDup_singleton].
    - simpl. intros [Hk|Hk]%Hin; [done|congruence].
    - simpl. intros [Hk|Hk]%Hin; [done|congruence].
    - done. }
  rewrite own_props_result, (own_props_lookup _ _ _ _ Hb). simpl props. fold bs.
  rewrite own_order_filter_fixed, <- own_order_filter, filter_shallow_merge_spec_one.
  unfold bs. rewrite own_order_filter_fixed. split; [done|].
  intros Hnin. apply filter_key_absent. by rewrite elem_of_keys_own_order.
Qed.

Lemma deleteProperty_after_setProperty_witness :
  exists r1 h1 r2 h2,
    setProperty true (VRef KImmutableValue 0) "d" (VNumber 4) heap_abc = (inr r1, h1)
    /\ deleteProperty true r1 "d" h1 = (inr r2, h2)
    /\ own_props h2 r2
       = filter (fun kv => kv.1 <> "d") (own_props heap_abc (VRef KImmutableValue 0))
    /\ ("d" ∉ keys [("a", VNumber 1); ("b", VNumber 2); ("c", VNumber 3)] ->
        own_props h2 r2 = own_props heap_abc (VRef KImmutableValue 0)).
Proof.
  apply (deleteProperty_after_setProperty true 0 "d" (VNumber 4) heap_abc
           (Object true [("a", VNumber 1); ("b", VNumber 2); ("c", VNumber 3)])).
  - reflexivity.
  - solve_NoDup.
  - apply (bool_decide_unpack _). vm_compute. reflexivity.
  - apply (bool_decide_unpack _). vm_compute. reflexivity.
  - discriminate.
  - discriminate.
Defined.

(** X6. On a base with no own entry named [hasOwnProperty] or [__proto__]:
    deleting a property and then setting it again gives the base's other
    entries and the key with its new value, put last when it is no array
    index. *)
Theorem setProperty_after_deleteProperty dev lb name putField h ob :
  h !! lb = Some ob -> NoDup (keys (props ob)) ->
  "hasOwnProperty" ∉ keys (props ob) -> "__proto__" ∉ keys (props ob) ->
  name <> "__proto__" ->
  exists r1 h1 r2 h2,
    deleteProperty dev (VRef KImmutableValue lb) name h = (inr r1, h1)
    /\ setProperty dev r1 name putField h1 = (inr r2, h2)
    /\ own_props h2 r2
       = own_order (filter (fun kv => kv.1 <> name) (own_props h (VRef KImmutableValue lb))
                    ++ [(name, putField)])
    /\ (array_index name = None ->
        own_props h2 r2
        = filter (fun kv => kv.1 <> name) (own_props h (VRef KImmutableValue lb))
          ++ [(name, putField)]).
Proof.
  intros Hb Hnd Hhas Hproto Hne.
  set (bs := own_order (props ob)).
  assert (Hnbs : NoDup (keys bs)) by (by apply (proj1 (NoDup_keys_own_order _))).
  set (es := filter (fun kv => kv.1 <> name) bs).
  assert (Hes : own_order es = es) by apply own_order_filter_fixed.
  eexists _, _, _, _. split; [by apply deleteProperty_run|].
  split.
  { eapply (setProperty_run dev (S (length h)) name putField _ (Object dev es)).
    - apply lookup_last2.
    - simpl. by apply NoDup_keys_filter.
    - done. }
  rewrite own_props_result, (own_props_lookup _ _ _ _ Hb). simpl props. fold bs es.
  rewrite Hes, shallow_merge_spec_new_key by apply has_key_filter_out.
  split; [done|]. intros Hix.
  rewrite own_order_app_plain by (by constructor). by rewrite Hes.
Qed.

Lemma setProperty_after_deleteProperty_witness :
  exists r1 h1 r2 h2,
    deleteProperty true (VRef KImmutableValue 0) "a" heap_abc = (inr r1, h1)
    /\ setProperty true r1 "a" (VNumber 9) h1 = (inr r2, h2)
    /\ own_props h2 r2
       = own_order (filter (fun kv => kv.1 <> "a") (own_props heap_abc (VRef KImmutableValue 0))
                    ++ [("a", VNumber 9)])
    /\ (array_index "a" = None ->
        own_props h2 r2
        = filter (fun kv => kv.1 <> "a") (own_props heap_abc (VRef KImmutableValue 0))
          ++ [("a", VNumber 9)]).
Proof.
  apply (setProperty_after_deleteProperty true 0 "a" (VNumber 9) heap_abc
           (Object true [("a", VNumber 1); ("b", VNumber 2); ("c", VNumber 3)])).
  - reflexivity.
  - solve_NoDup.
  - apply (bool_decide_unpack _). vm_compute. reflexivity.
  - apply (bool_decide_unpack _). vm_compute. reflexivity.
  - discriminate.
Defined.

(** X7. On a base with no own entry named [hasOwnProperty] or [__proto__]:
    after [deleteProperty(base, name)] the result has no key [name] and
    reads every other key as the base does; deleting [name] again gives the
    same entries. *)
Theorem deleteProperty_twice dev lb name h ob :
  h !! lb = Some ob -> NoDup (keys (props ob)) ->
  "hasOwnProperty" ∉ keys (props ob) -> "__proto__" ∉ keys (props ob) ->
  exists r1 h1 r2 h2,
    deleteProperty dev (VRef KImmutableValue lb) name h = (inr r1, h1)
    /\ assoc name (own_props h1 r1) = None
    /\ (forall k, k <> name ->
          assoc k (own_props h1 r1) = assoc k (own_props h (VRef KImmutableValue lb)))
    /\ deleteProperty dev r1 name h1 = (inr r2, h2)
    /\ own_props h2 r2 = own_props h1 r1.
Proof.
  intros Hb Hnd Hhas Hproto.
  set (bs := own_order (props ob)).
  set (es := filter (fun kv => kv.1 <> name) bs).
  assert (Hes : own_order es = es) by apply own_order_filter_fixed.
  assert (Hsub : forall k, k ∈ keys es -> k ∈ keys (props ob)).
  { intros k Hk%elem_keys_filter. unfold bs in Hk.
    by rewrite elem_of_keys_own_order in Hk. }
  eexists _, _, _, _. split; [by apply deleteProperty_run|].
  rewrite own_props_result, (own_props_lookup _ _ _ _ Hb). simpl props. fold bs es.
  rewrite Hes. split_and!.
  - apply assoc_None, has_key_filter_out.
  - intros k Hk. by apply assoc_filter_other.
  - eapply (deleteProperty_run dev KImmutableValue (S (length h)) name _ (Object dev es)).
    + apply lookup_last2.
    + simpl. apply NoDup_keys_filter. by apply (proj1 (NoDup_keys_own_order _)).
    + simpl. intros Hk%Hsub. done.
    + simpl. intros Hk%Hsub. done.
    + done.
  - rewrite own_props_result. simpl props. rewrite ?Hes, own_order_filter, Hes.
    apply filter_filter_same.
Qed.

Lemma deleteProperty_twice_witness :
  exists r1 h1 r2 h2,
    deleteProperty true (VRef KImmutableValue 0) "b" heap_abc = (inr r1, h1)
    /\ assoc "b" (own_props h1 r1) = None
    /\ (forall k, k <> "b" ->
          assoc k (own_props h1 r1)
          = assoc k (own_props heap_abc (VRef KImmutableValue 0)))
    /\ deleteProperty true r1 "b" h1 = (inr r2, h2)
    /\ own_props h2 r2 = own_props h1 r1.
Proof.
  apply (deleteProperty_twice true 0 "b" heap_abc
           (Object true [("a", VNumber 1); ("b", VNumber 2); ("c", VNumber 3)])).
  - reflexivity.
  - solve_NoDup.
  - apply (bool_decide_unpack _). vm_compute. reflexivity.
  - apply (bool_decide_unpack _). vm_compute. reflexivity.
Defined.

(** X9. Applying the same patch twice with [set] changes nothing the
    second time: the second result has the entries of the first. *)
Theorem set_same_patch_twice dev lb kp lp h ob op :
  h !! lb = Some ob -> h !! lp = Some op ->
  set_accepts (VRef kp lp) = true ->
  NoDup (keys (props ob)) -> NoDup (keys (props op)) ->
  exists r1 h1 r2 h2,
    set dev (VRef KImmutableValue lb) (VRef kp lp) h = (inr r1, h1)
    /\ set dev r1 (VRef kp lp) h1 = (inr r2, h2)
    /\ own_props h2 r2 = own_props h1 r1.
Proof.
  intros Hb Hp Hap Hnb Hnp.
  assert (Hlp : lp < length h) by by eapply lookup_lt_Some.
  set (bs := own_order (props ob)). set (ps := own_order (props op)).
  assert (Hnbs : NoDup (keys bs)) by (by apply (proj1 (NoDup_keys_own_order _))).
  assert (Hnps : NoDup (keys ps)) by (by apply (proj1 (NoDup_keys_own_order _))).
  set (e1 := shallow_merge_spec bs ps).
  assert (Hne1 : NoDup (keys e1)) by by apply NoDup_keys_shallow_merge_spec.
  assert (Hput : own_props h (VRef kp lp) = ps) by by apply own_props_lookup.
  eexists _, _, _, _. split.
  { rewrite (set_run dev lb _ _ ob); try done; by rewrite Hput. }
  rewrite Hput. fold bs e1. split.
  { rewrite (set_run dev (length h) _ _ (Object dev e1));
      [done|apply lookup_last|done|done|simpl; rewrite length_app; simpl; lia|].
    rewrite own_props_app by (simpl; lia). by rewrite Hput. }
  rewrite (own_props_app h _ (VRef kp lp)) by (simpl; lia). rewrite Hput. simpl props.
  rewrite (own_props_lookup _ _ _ _ (lookup_last (h ++ [Object dev e1]) _)).
  rewrite (own_props_lookup _ _ _ _ (lookup_last h _)). simpl props.
  rewrite shallow_merge_spec_absorb; [apply own_order_idem| |].
  - by apply (proj1 (NoDup_keys_own_order _)).
  - intros k v Hk. rewrite assoc_own_order by done.
    unfold e1. by rewrite assoc_shallow_merge_spec, Hk.
Qed.

Lemma set_same_patch_twice_witness :
  exists r1 h1 r2 h2,
    set true (VRef KImmutableValue 0) (VRef KObject 1) heap_abc = (inr r1, h1)
    /\ set true r1 (VRef KObject 1) h1 = (inr r2, h2)
    /\ own_props h2 r2 = own_props h1 r1.
Proof.
  apply (set_same_patch_twice true 0 KObject 1 heap_abc
           (Object true [("a", VNumber 1); ("b", VNumber 2); ("c", VNumber 3)])
           (Object false [("b", VString "x"); ("d", VString "y")])).
  - reflexivity.
  - reflexivity.
  - reflexivity.
  - solve_NoDup.
  - solve_NoDup.
Defined.

(** ** Deep merge and shallow merge *)

(** X12. On mappings whose keys are [ordinary]: when at every key that
    base and patch share one of the two values is terminal, there is
    nothing to recurse into: [setDeep] returns, and its result has the very
    entries of the result of [set] on the same arguments. *)
Theorem setDeep_flat_is_set dev d h obj put eb ip ep :
  reify nowhere d h obj = Some (Node true eb) ->
  reify nowhere d h put = Some (Node ip ep) ->
  (forall k bv pv,
     assoc k (own_props h obj) = Some bv -> assoc k (own_props h put) = Some pv ->
     mergeHelpers.isTerminal bv || mergeHelpers.isTerminal pv = true) ->
  exists r1 h1 r2 h2,
    setDeep' dev d obj put h = (inr r1, h1)
    /\ set dev obj put h = (inr r2, h2)
    /\ own_props h1 r1 = own_props h2 r2
    /\ own_props h2 r2
       = own_order (shallow_merge_spec (own_props h obj) (own_props h put)).
Proof.
  intros Hb Hp Hflat.
  destruct (setDeep_merged dev d nowhere h obj put true eb ip ep)
    as (l & ext & merged & o & Hrun & _ & Hlook & _ & Hfs & _ & Hfields & _); [done..|].
  cbv zeta in Hrun.
  pose proof (reify_instanceof _ _ _ _ _ _ Hb) as Himm.
  apply reify_node_inv in Hb as (kb & lb & ob & ? & -> & _ & _ & _ & Hlb & Hnb & _).
  apply reify_node_inv in Hp as (kp & lp & op & ? & -> & Hmp & _ & _ & Hlp & Hnp & _).
  destruct kb; try done.
  assert (Hnbs : NoDup (keys (own_props h (VRef KImmutableValue lb)))).
  { rewrite (own_props_lookup _ _ _ _ Hlb). by apply (proj1 (NoDup_keys_own_order _)). }
  assert (Hnps : NoDup (keys (own_props h (VRef kp lp)))).
  { rewrite (own_props_lookup _ _ _ _ Hlp). by apply (proj1 (NoDup_keys_own_order _)). }
  assert (Hset : set dev (VRef KImmutableValue lb) (VRef kp lp) h
                 = (inr (VRef KImmutableValue (length h)),
                    h ++ [Object dev (shallow_merge_spec
                                        (own_props h (VRef KImmutableValue lb))
                                        (own_props h (VRef kp lp)))])).
  { rewrite (own_props_lookup _ _ _ _ Hlb).
    apply set_run; try done; [by destruct kp|simpl; by eapply lookup_lt_Some]. }
  eexists _, _, _, _. split_and!.
  - unfold setDeep'. rewrite setDeep_immutable by done. exact Hrun.
  - exact Hset.
  - rewrite (own_props_lookup _ _ _ _ Hlook), Hfs.
    rewrite (own_props_lookup _ _ _ _ (lookup_last _ _)). simpl props.
    assert (Hflat' : forall kv pv,
              kv ∈ own_props h (VRef KImmutableValue lb) ->
              assoc kv.1 (own_props h (VRef kp lp)) = Some pv ->
              mergeHelpers.isTerminal kv.2 || mergeHelpers.isTerminal pv = true).
    { intros [k v] pv Hin. apply Hflat. by apply assoc_NoDup. }
    by rewrite (fields_flat _ _ _ _ Hflat' Hfields).
  - by rewrite (own_props_lookup _ _ _ _ (lookup_last _ _)).
Qed.

Lemma setDeep_flat_is_set_witness :
  exists r1 h1 r2 h2,
    setDeep' true 1 (VRef KImmutableValue 0) (VRef KObject 1) heap_abc = (inr r1, h1)
    /\ set true (VRef KImmutableValue 0) (VRef KObject 1) heap_abc = (inr r2, h2)
    /\ own_props h1 r1 = own_props h2 r2
    /\ own_props h2 r2
       = own_order (shallow_merge_spec (own_props heap_abc (VRef KImmutableValue 0))
                                       (own_props heap_abc (VRef KObject 1))).
Proof.
  apply (setDeep_flat_is_set true 1 heap_abc (VRef KImmutableValue 0) (VRef KObject 1)
           [("a", Leaf (VNumber 1)); ("b", Leaf (VNumber 2)); ("c", Leaf (VNumber 3))]
           false [("b", Leaf (VString "x")); ("d", Leaf (VString "y"))]).
  - reflexivity.
  - reflexivity.
  - intros k bv pv Hb Hp. simpl in Hb.
    destruct (decide (k = "a")); [by injection Hb as <-|].
    destruct (decide (k = "b")); [by injection Hb as <-|].
    destruct (decide (k = "c")); [by injection Hb as <-|].
    discriminate Hb.
Defined.

(** ** values *)

(** X13. [values] returns the values of the object's entries, in the order
    of its keys, and leaves the heap as it is; on [null] and [undefined] it
    throws a TypeError. *)
Theorem values_in_key_order k l h o :
  h !! l = Some o -> NoDup (keys (props o)) ->
  values (VRef k l) h = (inr (map snd (own_order (props o))), h)
  /\ values VNull h = (inl TypeError, h)
  /\ values VUndefined h = (inl TypeError, h).
Proof.
  intros Hl Hnd. split_and!; [|done|done].
  unfold values.
  rewrite (bind_run_ok _ _ h (keys (own_order (props o))) h)
    by (unfold Object_keys, gets; by rewrite (own_props_lookup _ _ _ _ Hl)).
  apply mapEach_prop_get. intros [key v] Hin.
  rewrite (own_props_lookup _ _ _ _ Hl). apply assoc_NoDup; [|done].
  by apply (proj1 (NoDup_keys_own_order _)).
Qed.

Lemma values_in_key_order_witness :
  values (VRef KImmutableValue 0) heap_abc
  = (inr (map snd [("a", VNumber 1); ("b", VNumber 2); ("c", VNumber 3)]), heap_abc)
  /\ values VNull heap_abc = (inl TypeError, heap_abc)
  /\ values VUndefined heap_abc = (inl TypeError, heap_abc).
Proof.
  apply (values_in_key_order KImmutableValue 0 heap_abc
           (Object true [("a", VNumber 1); ("b", VNumber 2); ("c", VNumber 3)])).
  - reflexivity.
  - solve_NoDup.
Defined.

(** The values of an object with array indices among its keys, and the
    characters of a string. *)
Example values_indices_first :
  (values (VRef KObject 0) [Object false [("b", VNumber 1); ("1", VNumber 2); ("0", VNumber 3)]]).1
  = inr [VNumber 3; VNumber 2; VNumber 1]
  /\ (values (VString "ab") []).1 = inr [VString "a"; VString "b"].
Proof. split; reflexivity. Qed.

(** ** Freezing *)

(** X15. The constructor freezes the new value under [__DEV__] only.  With
    [__DEV__] set, a later strict-mode write to an entry of the result of
    [set] throws a TypeError and changes nothing; without it the result is
    not frozen and such a write goes through. *)
Theorem set_result_frozen_in_dev dev lb kp lp h ob op :
  h !! lb = Some ob -> h !! lp = Some op ->
  set_accepts (VRef kp lp) = true ->
  NoDup (keys (props ob)) -> NoDup (keys (props op)) ->
  exists r h' o,
    set dev (VRef KImmutableValue lb) (VRef kp lp) h = (inr r, h')
    /\ r = VRef KImmutableValue (length h)
    /\ h' !! length h = Some o
    /\ frozen o = dev
    /\ (dev = true -> forall key v, key <> "__proto__" ->
          prop_set r key v h' = (inl TypeError, h'))
    /\ (dev = false ->
        forall key v, key <> "__proto__" ->
          prop_set r key v h'
          = (inr tt, <[length h := Object false (upsert key v (props o))]> h')).
Proof.
  intros Hb Hp Hacc Hnb Hnp. eexists _, _, _. split.
  { apply (set_run dev lb _ _ ob); try done.
    - simpl. by eapply lookup_lt_Some.
    - rewrite (own_props_lookup _ _ _ _ Hp). by apply (proj1 (NoDup_keys_own_order _)). }
  split; [done|]. split; [apply lookup_last|]. split; [done|].
  split; intros -> key v Hne; unfold prop_set; rewrite bool_decide_false by done;
    simpl; by rewrite lookup_last.
Qed.

Lemma set_result_frozen_in_dev_witness :
  exists r h' o,
    set true (VRef KImmutableValue 0) (VRef KObject 1) heap_abc = (inr r, h')
    /\ r = VRef KImmutableValue 2
    /\ h' !! 2 = Some o
    /\ frozen o = true
    /\ (true = true -> forall key v, key <> "__proto__" ->
          prop_set r key v h' = (inl TypeError, h'))
    /\ (true = false ->
        forall key v, key <> "__proto__" ->
          prop_set r key v h'
          = (inr tt, <[2 := Object false (upsert key v (props o))]> h')).
Proof.
  apply (set_result_frozen_in_dev true 0 KObject 1 heap_abc
           (Object true [("a", VNumber 1); ("b", VNumber 2); ("c", VNumber 3)])
           (Object false [("b", VString "x"); ("d", VString "y")])).
  - reflexivity.
  - reflexivity.
  - reflexivity.
  - solve_NoDup.
  - solve_NoDup.
Defined.

(** ** Sharing and copying *)

(** X20. The result of [set] is a copy one level deep: it is a new object,
    and a later write to an entry of any object that existed before the
    call, the patch and the base included, leaves the result's entries as
    they are. *)
Theorem set_result_is_a_copy dev lb kp lp h ob op :
  h !! lb = Some ob -> h !! lp = Some op ->
  set_accepts (VRef kp lp) = true ->
  NoDup (keys (props ob)) -> NoDup (keys (props op)) ->
  exists r h',
    set dev (VRef KImmutableValue lb) (VRef kp lp) h = (inr r, h')
    /\ forall target key v h'',
         allocated h target ->
         prop_set target key v h' = (inr tt, h'') ->
         own_props h'' r = own_props h' r.
Proof.
  intros Hb Hp Hacc Hnb Hnp. eexists _, _. split.
  { apply (set_run dev lb _ _ ob); try done.
    - simpl. by eapply lookup_lt_Some.
    - rewrite (own_props_lookup _ _ _ _ Hp). by apply (proj1 (NoDup_keys_own_order _)). }
  intros target key v h'' Hal Hset.
  destruct target as [| | | | |kt lt]; try done; unfold prop_set in Hset;
    (case_bool_decide;
     [destruct v; try done; by injection Hset as <-|]);
    try (destruct (hidden _ _); [done|]); try done.
  simpl in Hal. unfold define_own in Hset.
  destruct (_ !! lt) as [o|]; [|done]. destruct (frozen o); [done|].
  injection Hset as <-.
  apply own_props_insert_ne. simpl. lia.
Qed.

Lemma set_result_is_a_copy_witness :
  exists r h',
    set false (VRef KImmutableValue 0) (VRef KObject 1) heap_abc = (inr r, h')
    /\ forall target key v h'',
         allocated heap_abc target ->
         prop_set target key v h' = (inr tt, h'') ->
         own_props h'' r = own_props h' r.
Proof.
  apply (set_result_is_a_copy false 0 KObject 1 heap_abc
           (Object true [("a", VNumber 1); ("b", VNumber 2); ("c", VNumber 3)])
           (Object false [("b", VString "x"); ("d", VString "y")])).
  - reflexivity.
  - reflexivity.
  - reflexivity.
  - solve_NoDup.
  - solve_NoDup.
Defined.

(** ** The depth of the call stack *)

Lemma forEach_mono {A} (body1 body2 : A -> M unit) (xs : list A) :
  (forall x h h', body1 x h = (inr tt, h') -> body2 x h = (inr tt, h')) ->
  forall h h', forEach xs body1 h = (inr tt, h') -> forEach xs body2 h = (inr tt, h').
Proof.
  intros Hbody. induction xs as [|x xs IH]; intros h h' Hrun; [done|].
  simpl in *. unfold bind in Hrun |- *.
  destruct (body1 x h) as [[e|[]] h1] eqn:E; [done|].
  rewrite (Hbody _ _ _ E). by apply IH.
Qed.

Lemma merge_turn_mono isTerminal (rec1 rec2 : value -> value -> M value)
    obj put totalNewFields key h h' :
  (forall a b h0 r h1, rec1 a b h0 = (inr r, h1) -> rec2 a b h0 = (inr r, h1)) ->
  merge_turn isTerminal rec1 obj put totalNewFields key h = (inr tt, h') ->
  merge_turn isTerminal rec2 obj put totalNewFields key h = (inr tt, h').
Proof.
  intros Hrec. unfold merge_turn, bind.
  destruct (hasOwnProperty put key h) as [[e|own] h0]; [done|].
  destruct (negb own); [done|].
  unfold prop_get, gets.
  destruct (isTerminal _ || isTerminal _); [done|].
  destruct (rec1 _ _ h0) as [[e|r] h1] eqn:E; [done|].
  by rewrite (Hrec _ _ _ _ _ E).
Qed.

Lemma _setDeep_one_more dev isTerminal checkMergeObjectArgs fuel :
  forall obj put h r h',
    _setDeep dev isTerminal checkMergeObjectArgs fuel obj put h = (inr r, h') ->
    _setDeep dev isTerminal checkMergeObjectArgs (S fuel) obj put h = (inr r, h').
Proof.
  induction fuel as [|fuel IH]; intros obj put h r h' Hrun; [done|].
  rewrite _setDeep_unfold in Hrun. rewrite _setDeep_unfold.
  destruct (checkMergeObjectArgs obj put); [|done].
  simpl invariant in *.
  rewrite (bind_run_ok _ _ h tt h) in Hrun by done.
  rewrite (bind_run_ok _ _ h tt h) by done.
  rewrite (bind_run_ok _ _ _ _ _ (eq_refl : alloc KObject h = (_, _))) in Hrun.
  rewrite (bind_run_ok _ _ _ _ _ (eq_refl : alloc KObject h = (_, _))).
  destruct (Object_keys obj (h ++ [Object false []])) as [[e|ks] hk] eqn:Hks.
  { by rewrite (bind_run_err _ _ _ _ _ Hks) in Hrun. }
  rewrite (bind_run_ok _ _ _ _ _ Hks) in Hrun. rewrite (bind_run_ok _ _ _ _ _ Hks).
  match type of Hrun with
  | context [forEach ?xs ?body] =>
      destruct (forEach xs body hk) as [[e|[]] h2] eqn:E
  end.
  - by rewrite (bind_run_err _ _ _ _ _ E) in Hrun.
  - rewrite (bind_run_ok _ _ _ _ _ E) in Hrun.
    erewrite bind_run_ok; [exact Hrun|].
    eapply forEach_mono; [|exact E].
    intros key h0 h1. apply merge_turn_mono. exact IH.
Qed.

(** X22. The result of the deep merge does not depend on how much call
    stack is at hand: when [setDeep] returns with a stack of some depth, it
    returns the same value, in the same heap, with any deeper one. *)
Theorem setDeep_result_independent_of_stack dev isTerminal checkMergeObjectArgs
    fuel fuel' immutable put h :
  fuel <= fuel' ->
  match (setDeep dev isTerminal checkMergeObjectArgs fuel immutable put h).1 with
  | inr _ =>
      setDeep dev isTerminal checkMergeObjectArgs fuel' immutable put h
      = setDeep dev isTerminal checkMergeObjectArgs fuel immutable put h
  | inl _ => True
  end.
Proof.
  intros Hle. unfold setDeep, assertImmutable.
  destruct (instanceof_ImmutableValue immutable); [|done].
  simpl invariant. rewrite !(bind_run_ok _ _ h tt h) by done.
  destruct (_setDeep _ _ _ fuel immutable put h) as [[e|r] h'] eqn:E; [done|].
  simpl. induction Hle as [|fuel' Hle IH]; [done|].
  by apply _setDeep_one_more.
Qed.

Lemma setDeep_result_independent_of_stack_witness :
  match (setDeep true mergeHelpers.isTerminal mergeHelpers.checkMergeObjectArgs 2
           (VRef KImmutableValue 0) (VRef KObject 2) heap_p4).1 with
  | inr _ =>
      setDeep true mergeHelpers.isTerminal mergeHelpers.checkMergeObjectArgs 7
        (VRef KImmutableValue 0) (VRef KObject 2) heap_p4
      = setDeep true mergeHelpers.isTerminal mergeHelpers.checkMergeObjectArgs 2
          (VRef KImmutableValue 0) (VRef KObject 2) heap_p4
  | inl _ => True
  end.
Proof.
  apply (setDeep_result_independent_of_stack true mergeHelpers.isTerminal
           mergeHelpers.checkMergeObjectArgs 2 7 (VRef KImmutableValue 0) (VRef KObject 2)
           heap_p4).
  lia.
Defined.

(** ** The same deep patch, twice *)

Lemma Forall2_elem_r {A B} (P : A -> B -> Prop) (l : list A) (k : list B) y :
  Forall2 P l k -> y ∈ k -> exists x, x ∈ l /\ P x y.
Proof.
  induction 1 as [|x y' l k HP _ IH]; intros Hin.
  - by apply elem_of_nil in Hin.
  - apply elem_of_cons in Hin as [->|Hin].
    + exists x. split; [left|done].
    + destruct (IH Hin) as (x' & Hx' & HP'). exists x'. split; [by right|done].
Qed.

Lemma elem_keys {V} (kt : string * V) (es : list (string * V)) :
  kt ∈ es -> kt.1 ∈ keys es.
Proof. intros Hin. apply list_elem_of_fmap. by exists kt. Qed.

Lemma place_map {A B} (g : string * A -> string * B) i kv es :
  (forall x, (g x).1 = x.1) ->
  place i (g kv) (map g es) = map g (place i kv es).
Proof.
  intros Hg. induction es as [|x es IH]; simpl; [done|].
  rewrite Hg. destruct (array_index x.1) as [j|]; [|done].
  destruct (i <=? j)%N; [done|]. simpl. by rewrite IH.
Qed.

(** Listing in order commutes with a change of the values. *)
Lemma own_order_map {A B} (g : string * A -> string * B) es :
  (forall x, (g x).1 = x.1) -> own_order (map g es) = map g (own_order es).
Proof.
  intros Hg. unfold own_order. rewrite map_app. f_equal.
  - induction es as [|x es IH]; simpl; [done|].
    rewrite Hg. destruct (array_index x.1); [|done].
    rewrite IH. by apply place_map.
  - induction es as [|x es IH]; simpl; [done|].
    destruct (decide (array_index x.1 = None)) as [Hx|Hx].
    + rewrite !filter_cons_True by (by rewrite ?Hg). simpl. by rewrite IH.
    + rewrite !filter_cons_False by (by rewrite ?Hg). done.
Qed.

(** The entries of a tree that a value denotes stand in order. *)
Lemma reified_in_order f (es0 : list (string * value)) (es : list (string * tree)) :
  Forall2 (entry_reifies f) (own_order es0) es -> own_order es = es.
Proof.
  intros H.
  assert (Hmap : es = map (fun kv => (kv.1, default (Leaf VNull) (f kv.2))) (own_order es0)).
  { induction H as [|kv kt l l' [Hk Hf] _ IH]; [done|]. simpl.
    rewrite <- IH, Hf. simpl. destruct kt; simpl in *. by subst. }
  rewrite Hmap at 1. rewrite own_order_map by done. by rewrite own_order_idem, <- Hmap.
Qed.

(** An entry of a mapping merged into that same mapping stays as it is. *)
Lemma merge_entry_self ep kt :
  NoDup (keys ep) -> kt ∈ ep ->
  (is_leaf kt.2 = false -> deep_merge_listed kt.2 kt.2 = kt.2) ->
  merge_entry ep kt = kt.
Proof.
  intros Hnd Hin Hself. destruct kt as [k t]. unfold merge_entry. simpl in *.
  rewrite (assoc_NoDup k t ep Hnd Hin). f_equal.
  destruct (is_leaf t) eqn:Hl; simpl; [done|]. by apply Hself.
Qed.

Lemma reified_keys av d h o es :
  NoDup (keys (props o)) ->
  Forall2 (entry_reifies (reify av d h)) (own_order (props o)) es -> NoDup (keys es).
Proof.
  intros Hnd Hes. rewrite (entries_keys _ _ _ Hes).
  by apply (proj1 (NoDup_keys_own_order _)).
Qed.

Lemma deep_merge_listed_self av d : forall h v t,
  reify av d h v = Some t -> is_leaf t = false -> deep_merge_listed t t = t.
Proof.
  induction d as [|d IH]; intros h v t Hr Hleaf.
  - destruct t as [|i es]; [done|].
    by apply reify_node_inv in Hr as (? & ? & ? & ? & _ & _ & [=] & _).
  - destruct t as [|i es]; [done|].
    apply reify_node_inv in Hr
      as (k & l & o & d' & -> & _ & [= <-] & _ & _ & Hnd & _ & Hes & _).
    rewrite deep_merge_listed_nodes, orb_diag.
    assert (Hk : NoDup (keys es)) by by eapply reified_keys.
    rewrite (filter_none _ es).
    2:{ intros kt Hin. simpl.
        rewrite (proj2 (has_key_true kt.1 es) (elem_keys _ _ Hin)). done. }
    rewrite app_nil_r. f_equal.
    replace (map (merge_entry es) es) with es; [by eapply reified_in_order|].
    rewrite <- (map_id es) at 1. apply map_ext_in. intros kt Hin.
    apply list_elem_of_In in Hin. symmetry.
    apply merge_entry_self; [done|done|].
    destruct (Forall2_elem_r _ _ _ _ Hes Hin) as (kv & _ & _ & Hkv).
    intros Hl. by eapply IH.
Qed.

Lemma deep_merge_listed_is_node b p :
  is_leaf b = false -> is_leaf p = false -> is_leaf (deep_merge_listed b p) = false.
Proof. by destruct b, p. Qed.

Lemma deep_merge_listed_idem av d : forall h v w tb tp,
  reify av d h v = Some tb -> reify av d h w = Some tp ->
  is_leaf tb = false -> is_leaf tp = false ->
  deep_merge_listed (deep_merge_listed tb tp) tp = deep_merge_listed tb tp.
Proof.
  induction d as [|d IH]; intros h v w tb tp Hb Hp Hlb Hlp.
  - destruct tb as [|ib eb]; [done|].
    by apply reify_node_inv in Hb as (? & ? & ? & ? & _ & _ & [=] & _).
  - destruct tb as [|ib eb]; [done|]. destruct tp as [|ip ep]; [done|].
    apply reify_node_inv in Hb
      as (kb & lb & ob & d' & -> & _ & [= <-] & _ & _ & Hndb & _ & Heb & _).
    apply reify_node_inv in Hp
      as (kp & lp & op & d' & -> & _ & [= <-] & _ & _ & Hndp & _ & Hep & _).
    assert (Hkp : NoDup (keys ep)) by by eapply reified_keys.
    assert (Hself : forall kt, kt ∈ ep -> merge_entry ep kt = kt).
    { intros kt Hin. apply merge_entry_self; [done|done|].
      destruct (Forall2_elem_r _ _ _ _ Hep Hin) as (kv & _ & _ & Hkv).
      intros Hl. by eapply deep_merge_listed_self. }
    rewrite !deep_merge_listed_nodes. f_equal; [by destruct ib, ip|].
    set (m := map (merge_entry ep) eb ++ filter (fun kv => has_key kv.1 eb = false) ep).
    rewrite (filter_none _ ep).
    2:{ intros kt Hin Hno. simpl in Hno. apply has_key_false in Hno. apply Hno.
        apply elem_of_keys_own_order. unfold m, keys. rewrite map_app, elem_of_app.
        destruct (has_key kt.1 eb) eqn:Hk.
        - left. apply has_key_true in Hk. unfold keys in Hk.
          rewrite map_map. simpl. done.
        - right. apply (elem_keys kt). by apply list_elem_of_filter. }
    rewrite app_nil_r, <- own_order_map by done. rewrite own_order_idem. f_equal.
    unfold m. rewrite map_app. f_equal.
    + rewrite map_map. apply map_ext_in. intros [k tbv] Hin.
      apply list_elem_of_In in Hin.
      destruct (Forall2_elem_r _ _ _ _ Heb Hin) as (kv & _ & _ & Hkv). simpl in Hkv.
      unfold merge_entry at 2 3. simpl.
      destruct (assoc k ep) as [tpv|] eqn:Hpv.
      * pose proof (assoc_Some_elem _ _ _ Hpv) as Hpin.
        destruct (Forall2_elem_r _ _ _ _ Hep Hpin) as (pkv & _ & _ & Hpkv).
        simpl in Hpkv.
        destruct (is_leaf tbv || is_leaf tpv) eqn:Hterm.
        -- by apply Hself.
        -- apply orb_false_iff in Hterm as [Hl1 Hl2].
           unfold merge_entry. simpl. rewrite Hpv.
           rewrite deep_merge_listed_is_node, Hl2 by done. simpl.
           f_equal. by eapply IH.
      * unfold merge_entry. simpl. by rewrite Hpv.
    + rewrite <- (map_id (filter _ ep)) at 2. apply map_ext_in. intros kt Hin.
      apply list_elem_of_In, list_elem_of_filter in Hin as [_ Hin]. by apply Hself.
Qed.

(** X21. On mappings whose keys are [ordinary], the deep merge is
    idempotent: merging the same patch into the result of [setDeep] denotes
    the tree that the first merge denotes. *)
Theorem setDeep_same_patch_twice dev d h obj put ib eb ip ep :
  reify nowhere d h obj = Some (Node ib eb) ->
  reify nowhere d h put = Some (Node ip ep) ->
  exists r1 h1 r2 h2 t,
    _setDeep' dev d obj put h = (inr r1, h1)
    /\ _setDeep' dev d r1 put h1 = (inr r2, h2)
    /\ reify nowhere d h1 r1 = Some t
    /\ reify nowhere d h2 r2 = Some t.
Proof.
  intros Hb Hp.
  destruct (setDeep_merged dev d nowhere h obj put ib eb ip ep)
    as (l1 & ext1 & m1 & o1 & Hrun1 & _ & _ & _ & _ & _ & _ & Hr1); [done..|].
  cbv zeta in Hrun1, Hr1.
  pose proof (reify_prefix _ _ _ (h ++ ext1) _ _ (prefix_app_r _ _ _ (reflexivity h)) Hp)
    as Hp1.
  pose proof Hr1 as Hr1'. rewrite deep_merge_listed_nodes in Hr1'.
  destruct (setDeep_merged dev d nowhere (h ++ ext1) _ put _ _ ip ep
              ltac:(done) Hr1' Hp1)
    as (l2 & ext2 & m2 & o2 & Hrun2 & _ & _ & _ & _ & _ & _ & Hr2).
  cbv zeta in Hrun2, Hr2.
  eexists _, _, _, _, _. split_and!; [exact Hrun1|exact Hrun2|exact Hr1|].
  rewrite Hr2. f_equal. rewrite <- deep_merge_listed_nodes.
  by eapply (deep_merge_listed_idem nowhere d h obj put).
Qed.

Lemma setDeep_same_patch_twice_witness :
  exists r1 h1 r2 h2 t,
    _setDeep' true 2 (VRef KImmutableValue 0) (VRef KObject 2) heap_p4 = (inr r1, h1)
    /\ _setDeep' true 2 r1 (VRef KObject 2) h1 = (inr r2, h2)
    /\ reify nowhere 2 h1 r1 = Some t
    /\ reify nowhere 2 h2 r2 = Some t.
Proof.
  apply (setDeep_same_patch_twice true 2 heap_p4 (VRef KImmutableValue 0) (VRef KObject 2)
           true [("k", Node false [("m", Leaf (VNumber 1)); ("n", Leaf (VNumber 2))])]
           false [("k", Node false [("n", Leaf (VNumber 9)); ("p", Leaf (VNumber 3))])]).
  - reflexivity.
  - reflexivity.
Defined.
